(** * teeb_trade: the dashboard's signal state, embedded from
    [src/frontend/src/lib/types.ts] and the script block of the dashboard
    page component (activeSignals, stats, the socket's callbacks, the
    interval, clearHistory, getProgress, getElapsedTime and the two derived
    lists).

    Modelling choices, all stated once here:
    - a JS [number] is an exact rational ([Q]); NaN, the infinities and
      rounding are outside the model.  Every arithmetic step the claims
      depend on ([now - timestamp], the comparator's difference, the ratio
      at 0, 30 and 60 minutes) is exact on doubles for millisecond stamps;
    - frames are typed as [types.ts] declares them ([WsMessage]), and a
      payload object carries the declared fields and no others; what
      [JSON.parse] does with the raw text is a parameter of the handler.
      The handler validates nothing: of the frames that are not of the
      declared type, those that keep the component's variables within
      their declared types are covered (see [Parsed]);
    - [activeSignals] is a plain JS object used as a map.  The model is the
      list of its own enumerable properties in [Object.values] order.
      Assignment and lookup by key follow the object's prototype chain:
      the key [__proto__] and the names inherited from Object.prototype
      are written out where the handler reaches them;
    - the script is module code, hence strict: a property write on a
      primitive throws;
    - showToast and playBeep are recorded in a log of notifications,
      console.error in a counter; the Web Audio calls inside playBeep are
      taken to succeed. *)

From Stdlib Require Import List String Ascii Bool NArith ZArith QArith Qminmax.
From Stdlib Require Import Lia Lqa Permutation Sorted Qround DecimalString.
Import ListNotations.

Local Open Scope string_scope.
Local Open Scope Q_scope.

(** ** types.ts *)

Definition number := Q.

Inductive SignalType := Long | Short.

Definition SignalType_string (t : SignalType) : string :=
  match t with Long => "Long" | Short => "Short" end.

Module Signal.
Record t := mk {
  symbol : string;
  signal_type : SignalType;
  price : number;
  volume : number;
  avg_volume : number;
  timestamp : number;
  reason : string;
  order_book_ratio : option number;
  oi : option number;
  net_inflow : option number
}.
End Signal.

Module SignalUpdate.
Record t := mk {
  symbol : string;
  price : number;
  volume : number;
  timestamp : number
}.
End SignalUpdate.

Module Stats.
Record t := mk {
  total_signals : number;
  win_rate : number;
  top_gainer : string
}.
End Stats.

Inductive WsMessage :=
| Msg_Signal (payload : Signal.t)
| Msg_Update (payload : SignalUpdate.t)
| Msg_Stats (payload : Stats.t)
| Msg_History (payload : list Signal.t).

(** ** The object behind [activeSignals : Record<string, Signal>] *)

(** Own enumerable properties, in the order [Object.values] walks them:
    array-index keys in ascending numeric order, then the other keys in
    the order they were created. *)
Definition Registry := list (string * Signal.t).

Definition digit_of (c : ascii) : option N :=
  let n := N_of_ascii c in
  if ((48 <=? n) && (n <=? 57))%N then Some (n - 48)%N else None.

Fixpoint decimal_value (acc : N) (s : string) : option N :=
  match s with
  | EmptyString => Some acc
  | String c s' =>
      match digit_of c with
      | Some d => decimal_value (10 * acc + d)%N s'
      | None => None
      end
  end.

(** A key is an array index when it is the canonical decimal spelling of an
    integer below 2^32 - 1. *)
Definition array_index (k : string) : option N :=
  match k with
  | EmptyString => None
  | String "0"%char EmptyString => Some 0%N
  | String "0"%char _ => None
  | _ =>
      match decimal_value 0 k with
      | Some n => if (n <? 2 ^ 32 - 1)%N then Some n else None
      | None => None
      end
  end.

(** Does a key that is being created enumerate before the existing [k']? *)
Definition enumerates_before (k k' : string) : bool :=
  match array_index k, array_index k' with
  | Some n, Some n' => (n <? n')%N
  | Some _, None => true
  | None, _ => false
  end.

(** [o[k]], own properties only. *)
Fixpoint get_own (k : string) (o : Registry) : option Signal.t :=
  match o with
  | [] => None
  | (k', v) :: rest => if String.eqb k k' then Some v else get_own k rest
  end.

Definition has_own (k : string) (o : Registry) : bool :=
  match get_own k o with Some _ => true | None => false end.

(** Assignment to an existing own property keeps its place in the order. *)
Fixpoint overwrite (k : string) (v : Signal.t) (o : Registry) : Registry :=
  match o with
  | [] => []
  | (k', v') :: rest =>
      if String.eqb k k' then (k', v) :: rest
      else (k', v') :: overwrite k v rest
  end.

(** Assignment to a key the object does not have creates the property. *)
Fixpoint define_own (k : string) (v : Signal.t) (o : Registry) : Registry :=
  match o with
  | [] => [(k, v)]
  | (k', v') :: rest =>
      if enumerates_before k k' then (k, v) :: (k', v') :: rest
      else (k', v') :: define_own k v rest
  end.

(** [o[k] = v] on a plain object.  For the key [__proto__] the assignment
    runs the setter inherited from Object.prototype: it replaces the
    object's prototype by [v] and creates no own property.  (This is so
    because no object on the prototype chain has an own property of that
    name: payload objects carry the fields of [Signal.t] only.) *)
Definition set_prop (k : string) (v : Signal.t) (o : Registry) : Registry :=
  if String.eqb k "__proto__" then o
  else if has_own k o then overwrite k v o
  else define_own k v o.

(** [{ ...o }]: a fresh object with the same own enumerable properties (and
    the default prototype again). *)
Definition spread (o : Registry) : Registry := o.

Definition Object_values (o : Registry) : list Signal.t := map snd o.

(** In-place mutation of the object stored under [k]. *)
Fixpoint mutate_own (k : string) (f : Signal.t -> Signal.t) (o : Registry)
  : Registry :=
  match o with
  | [] => []
  | (k', v) :: rest =>
      if String.eqb k k' then (k', f v) :: rest
      else (k', v) :: mutate_own k f rest
  end.

Definition set_price (p : number) (s : Signal.t) : Signal.t :=
  Signal.mk (Signal.symbol s) (Signal.signal_type s) p (Signal.volume s)
    (Signal.avg_volume s) (Signal.timestamp s) (Signal.reason s)
    (Signal.order_book_ratio s) (Signal.oi s) (Signal.net_inflow s).

Definition set_volume (v : number) (s : Signal.t) : Signal.t :=
  Signal.mk (Signal.symbol s) (Signal.signal_type s) (Signal.price s) v
    (Signal.avg_volume s) (Signal.timestamp s) (Signal.reason s)
    (Signal.order_book_ratio s) (Signal.oi s) (Signal.net_inflow s).

(** ** Component state *)

Inductive Notification :=
| Toast (toastMessage : string) (toastType : SignalType)
| Beep.

(** The component's variables, the two properties the Update branch can
    leave on Object.prototype, and the logs. *)
Record State := mkState {
  activeSignals : Registry;
  stats : Stats.t;
  isConnected : bool;
  toastMessage : option string;
  toastType : SignalType;
  now : number;
  Object_prototype_price : option number;
  Object_prototype_volume : option number;
  notifications : list Notification;
  console_errors : nat
}.

Definition initial_stats : Stats.t := Stats.mk 0 0 "---".

Definition initial (t0 : number) : State :=
  mkState [] initial_stats false None Long t0 None None [] 0.

Definition with_activeSignals (o : Registry) (st : State) : State :=
  mkState o (stats st) (isConnected st) (toastMessage st) (toastType st)
    (now st) (Object_prototype_price st) (Object_prototype_volume st)
    (notifications st) (console_errors st).

Definition with_stats (s : Stats.t) (st : State) : State :=
  mkState (activeSignals st) s (isConnected st) (toastMessage st)
    (toastType st) (now st) (Object_prototype_price st)
    (Object_prototype_volume st) (notifications st) (console_errors st).

Definition with_Object_prototype (p v : number) (st : State) : State :=
  mkState (activeSignals st) (stats st) (isConnected st) (toastMessage st)
    (toastType st) (now st) (Some p) (Some v)
    (notifications st) (console_errors st).

(** showToast: sets the two toast variables (a 3000 ms timer clears the
    message later). *)
Definition showToast (signal : Signal.t) (st : State) : State :=
  let msg := SignalType_string (Signal.signal_type signal)
             ++ " Signal: " ++ Signal.symbol signal in
  mkState (activeSignals st) (stats st) (isConnected st) (Some msg)
    (Signal.signal_type signal) (now st) (Object_prototype_price st)
    (Object_prototype_volume st)
    (notifications st ++ [Toast msg (Signal.signal_type signal)])
    (console_errors st).

(** playBeep: the oscillator itself is Web Audio; the call is logged. *)
Definition playBeep (st : State) : State :=
  mkState (activeSignals st) (stats st) (isConnected st) (toastMessage st)
    (toastType st) (now st) (Object_prototype_price st)
    (Object_prototype_volume st) (notifications st ++ [Beep])
    (console_errors st).

Definition console_error (st : State) : State :=
  mkState (activeSignals st) (stats st) (isConnected st) (toastMessage st)
    (toastType st) (now st) (Object_prototype_price st)
    (Object_prototype_volume st) (notifications st) (S (console_errors st)).

(** The 1000 ms interval of onMount. *)
Definition tick (t : number) (st : State) : State :=
  mkState (activeSignals st) (stats st) (isConnected st) (toastMessage st)
    (toastType st) t (Object_prototype_price st) (Object_prototype_volume st)
    (notifications st) (console_errors st).

(** socket.onopen and socket.onclose (the latter also schedules the next
    connect after 3000 ms). *)
Definition onopen (st : State) : State :=
  mkState (activeSignals st) (stats st) true (toastMessage st)
    (toastType st) (now st) (Object_prototype_price st)
    (Object_prototype_volume st) (notifications st) (console_errors st).

Definition onclose (st : State) : State :=
  mkState (activeSignals st) (stats st) false (toastMessage st)
    (toastType st) (now st) (Object_prototype_price st)
    (Object_prototype_volume st) (notifications st) (console_errors st).

(** ** Reading [activeSignals[key]] *)

(** What the read evaluates to.  At the start of every handler run the
    object's prototype is Object.prototype (each branch that assigns to it
    ends with a spread copy, clearHistory assigns a fresh [{}]). *)
Inductive Value :=
| undefined
| entry (s : Signal.t)     (* an own property *)
| Object_prototype         (* the getter [__proto__] *)
| builtin_function         (* a method inherited from Object.prototype *)
| inherited_number (n : number).

Definition Object_prototype_methods : list string :=
  ["constructor"; "hasOwnProperty"; "isPrototypeOf"; "propertyIsEnumerable";
   "toLocaleString"; "toString"; "valueOf"; "__defineGetter__";
   "__defineSetter__"; "__lookupGetter__"; "__lookupSetter__"].

Definition inherited (k : string) (st : State) : Value :=
  if String.eqb k "__proto__" then Object_prototype
  else if existsb (String.eqb k) Object_prototype_methods then builtin_function
  else if String.eqb k "price" then
    match Object_prototype_price st with
    | Some n => inherited_number n
    | None => undefined
    end
  else if String.eqb k "volume" then
    match Object_prototype_volume st with
    | Some n => inherited_number n
    | None => undefined
    end
  else undefined.

Definition get_prop (k : string) (st : State) : Value :=
  match get_own k (activeSignals st) with
  | Some s => entry s
  | None => inherited k st
  end.

(** ToBoolean on a number (no NaN in the model). *)
Definition truthy_number (n : number) : bool := negb (Qeq_bool n 0).

(** ** socket.onmessage *)

Inductive Completion :=
| Normal (st : State)
| Thrown (st : State).

Definition after (c : Completion) : State :=
  match c with Normal st | Thrown st => st end.

(** The if/else chain on [data.type], for a frame of the declared type. *)
Definition dispatch (data : WsMessage) (st : State) : Completion :=
  match data with
  | Msg_Stats payload => Normal (with_stats payload st)
  | Msg_Signal signal =>
      let st1 := with_activeSignals
                   (set_prop (Signal.symbol signal) signal (activeSignals st)) st in
      let st2 := with_activeSignals (spread (activeSignals st1)) st1 in
      Normal (playBeep (showToast signal st2))
  | Msg_History history =>
      let o := fold_left (fun o s => set_prop (Signal.symbol s) s o)
                 history (activeSignals st) in
      Normal (with_activeSignals (spread o) st)
  | Msg_Update update =>
      let k := SignalUpdate.symbol update in
      match get_prop k st with
      | undefined => Normal st
      | entry _ =>
          (* the stored object is mutated in place *)
          let o1 := mutate_own k (set_price (SignalUpdate.price update))
                      (activeSignals st) in
          let o2 := mutate_own k (set_volume (SignalUpdate.volume update)) o1 in
          Normal (with_activeSignals o2 st)
      | Object_prototype =>
          (* the two writes create price and volume on Object.prototype *)
          Normal (with_Object_prototype (SignalUpdate.price update)
                    (SignalUpdate.volume update) st)
      | builtin_function =>
          (* the two writes land on the function object *)
          Normal st
      | inherited_number n =>
          (* falsy: branch skipped; truthy: [n.price = ...] is a write on
             a primitive, a TypeError in strict code *)
          if truthy_number n then Thrown st else Normal st
      end
  end.

(** No signal of the list has the symbol [__proto__]. *)
Definition ordinary_symbols (l : list Signal.t) : bool :=
  forallb (fun s => negb (String.eqb (Signal.symbol s) "__proto__")) l.

(** What [JSON.parse(event.data)] makes of a frame.  Besides the frames of
    the declared type, the frames listed here are those the handler meets
    without leaving the declared types of its variables.  Payloads are not
    validated, so a payload of another shape (a field of the wrong type, a
    missing field, a null Stats payload) would put values into the
    component that [types.ts] does not describe; those are not covered.
    A History list cut short by a null is covered when none of the signals
    before the null has the symbol [__proto__] (such a signal would stay
    behind as the object's prototype, since the spread copy is skipped). *)
Inductive Parsed :=
| SyntaxError                 (* JSON.parse throws *)
| Null                        (* the frame is [null]: [data.type] throws *)
| Message (data : WsMessage)  (* one of the four declared variants *)
| UnknownTag                  (* [data.type] is none of the four tags *)
| NullPayload                 (* Signal, Update or History with payload [null] *)
| HistoryThenNull (stored : list Signal.t)
    (ordinary : ordinary_symbols stored = true).
                              (* History whose list is [stored], then [null] *)

(** The body of the try block. *)
Definition try_block (p : Parsed) (st : State) : Completion :=
  match p with
  | SyntaxError | Null => Thrown st
  | Message data => dispatch data st
  | UnknownTag => Normal st
  | NullPayload =>
      (* [payload.symbol] / [payload.forEach] on null: a TypeError before
         anything is assigned *)
      Thrown st
  | HistoryThenNull stored _ =>
      (* forEach stores the signals in front of the null, then [s.symbol]
         throws; the spread copy is not reached *)
      Thrown (with_activeSignals
                (fold_left (fun o s => set_prop (Signal.symbol s) s o)
                   stored (activeSignals st)) st)
  end.

(** catch (e) { console.error('Error parsing message', e); } *)
Definition catch (c : Completion) : Completion :=
  match c with
  | Normal st => Normal st
  | Thrown st => Normal (console_error st)
  end.

Section Socket.
Variable JSON_parse : string -> Parsed.

Definition onmessage (event_data : string) (st : State) : Completion :=
  catch (try_block (JSON_parse event_data) st).

(** Frames are handled one at a time, in arrival order. *)
Definition receive (frames : list string) (st : State) : State :=
  fold_left (fun st f => after (onmessage f st)) frames st.
End Socket.

(** The handler on a frame that parsed to a typed event. *)
Definition handle (data : WsMessage) (st : State) : State :=
  after (catch (dispatch data st)).

(** Typed events handled in arrival order. *)
Definition process (events : list WsMessage) (st : State) : State :=
  fold_left (fun st m => handle m st) events st.

Definition clearHistory (st : State) : State := with_activeSignals [] st.

(** ** Derived views *)

Definition Qltb (a b : Q) : bool :=
  match a ?= b with Lt => true | _ => false end.

(** Array.prototype.sort with a comparator: stable, [a] is placed before
    [b] when [compare a b < 0] and equal elements keep their order. *)
Section Sort.
Variable A : Type.
Variable compare : A -> A -> number.

Fixpoint sort_insert (x : A) (l : list A) : list A :=
  match l with
  | [] => [x]
  | y :: l' =>
      if Qle_bool (compare x y) 0 then x :: y :: l'
      else y :: sort_insert x l'
  end.

Fixpoint Array_sort (l : list A) : list A :=
  match l with
  | [] => []
  | x :: l' => sort_insert x (Array_sort l')
  end.
End Sort.
Arguments sort_insert {A}.
Arguments Array_sort {A}.

(** (a,b) => b.timestamp - a.timestamp *)
Definition by_timestamp_desc (a b : Signal.t) : number :=
  Signal.timestamp b - Signal.timestamp a.

Definition sortedActiveSignals (st : State) : list Signal.t :=
  Array_sort by_timestamp_desc (Object_values (activeSignals st)).

Definition is_recent (st : State) (s : Signal.t) : bool :=
  Qltb (now st - Signal.timestamp s) (60 * 60 * 1000).

(** The list behind the live cards:
    sortedActiveSignals.filter(s => now - s.timestamp < 60 * 60 * 1000) *)
Definition activeFeed (st : State) : list Signal.t :=
  filter (is_recent st) (sortedActiveSignals st).

Definition getProgress (st : State) (timestamp : number) : number :=
  let elapsed := now st - timestamp in
  let total := 60 * 60 * 1000 in
  Qmin 100 ((elapsed / total) * 100).

(** ** getElapsedTime *)

(** Math.floor((now - timestamp) / 60000) *)
Definition elapsed_minutes (st : State) (timestamp : number) : Z :=
  Qfloor ((now st - timestamp) / 60000).

(** An integer inside a template literal: decimal digits with a leading
    minus sign (the spelling JS uses below 10^21 in absolute value). *)
Definition Number_toString (z : Z) : string :=
  NilZero.string_of_int (Z.to_int z).

Definition getElapsedTime (st : State) (timestamp : number) : string :=
  Number_toString (elapsed_minutes st timestamp) ++ "m".

(** ** The page as a whole *)

(** Everything that runs code of the component after mount: the socket's
    three callbacks (a frame comes with what JSON.parse makes of it), the
    interval, and the Clear button. *)
Inductive PageEvent :=
| SocketOpen
| SocketClose
| SocketMessage (p : Parsed)
| IntervalTick (t : number)
| ClearClick.

Definition step (e : PageEvent) (st : State) : State :=
  match e with
  | SocketOpen => onopen st
  | SocketClose => onclose st
  | SocketMessage p => after (catch (try_block p st))
  | IntervalTick t => tick t st
  | ClearClick => clearHistory st
  end.

Definition run (events : list PageEvent) (st : State) : State :=
  fold_left (fun st e => step e st) events st.

(** ** Vocabulary of the statements *)

(** Keys of the object. *)
Definition keys (o : Registry) : list string := map fst o.

(** One own property per key: the representation invariant of an object. *)
Definition one_entry_per_symbol (o : Registry) : Prop := NoDup (keys o).

(** What an event does to the own properties of [activeSignals]. *)
Definition registry_after (data : WsMessage) (o : Registry) : Registry :=
  match data with
  | Msg_Signal signal => set_prop (Signal.symbol signal) signal o
  | Msg_History history =>
      fold_left (fun o s => set_prop (Signal.symbol s) s o) history o
  | Msg_Update update =>
      let k := SignalUpdate.symbol update in
      mutate_own k (set_volume (SignalUpdate.volume update))
        (mutate_own k (set_price (SignalUpdate.price update)) o)
  | Msg_Stats _ => o
  end.

(** Counting the notifications of a state. *)
Definition is_toast (n : Notification) : bool :=
  match n with Toast _ _ => true | Beep => false end.

Definition is_beep (n : Notification) : bool :=
  match n with Toast _ _ => false | Beep => true end.

Definition toasts (st : State) : nat :=
  List.length (filter is_toast (notifications st)).

Definition beeps (st : State) : nat :=
  List.length (filter is_beep (notifications st)).

(** A frame that yields no typed event and on which the handler assigns
    nothing. *)
Definition fails_to_decode (p : Parsed) : Prop :=
  p = SyntaxError \/ p = Null \/ p = UnknownTag \/ p = NullPayload.

(** Most recent first. *)
Definition newer_first (a b : Signal.t) : Prop :=
  Signal.timestamp b <= Signal.timestamp a.

(** Every entry sits under the key that is its own symbol. *)
Definition filed_under_symbol (o : Registry) : Prop :=
  Forall (fun kv => Signal.symbol (snd kv) = fst kv) o.

Definition well_formed (o : Registry) : Prop :=
  one_entry_per_symbol o /\ filed_under_symbol o.

(** The last signal of a history list that carries the symbol [k]. *)
Fixpoint last_for (k : string) (h : list Signal.t) : option Signal.t :=
  match h with
  | [] => None
  | s :: h' =>
      match last_for k h' with
      | Some s' => Some s'
      | None => if String.eqb (Signal.symbol s) k then Some s else None
      end
  end.

(** What a card's position depends on. *)
Definition same_origin (a b : Signal.t) : Prop :=
  Signal.symbol a = Signal.symbol b /\ Signal.timestamp a = Signal.timestamp b.

(** The payload of the last Stats frame of a run, if there is one. *)
Fixpoint last_stats (events : list PageEvent) : option Stats.t :=
  match events with
  | [] => None
  | e :: events' =>
      match last_stats events' with
      | Some p => Some p
      | None =>
          match e with
          | SocketMessage (Message (Msg_Stats p)) => Some p
          | _ => None
          end
      end
  end.

(** The notifications an event is expected to raise: a toast and a beep
    for a Signal frame, nothing for anything else. *)
Definition announced (e : PageEvent) : list Notification :=
  match e with
  | SocketMessage (Message (Msg_Signal s)) =>
      [Toast (SignalType_string (Signal.signal_type s)
                ++ " Signal: " ++ Signal.symbol s)%string
         (Signal.signal_type s); Beep]
  | _ => []
  end.



(** Everything but the frames that JSON.parse rejects, that are [null], or
    whose tag is unknown. *)
Definition carries_message (e : PageEvent) : bool :=
  match e with
  | SocketMessage SyntaxError | SocketMessage Null
  | SocketMessage UnknownTag => false
  | _ => true
  end.

Definition is_clear (e : PageEvent) : bool :=
  match e with ClearClick => true | _ => false end.

(** Signal and History frames: the frames that store signals. *)
Definition stores_signals (e : PageEvent) : bool :=
  match e with
  | SocketMessage (Message (Msg_Signal _))
  | SocketMessage (Message (Msg_History _))
  | SocketMessage (HistoryThenNull _ _) => true
  | _ => false
  end.


(** What the last socket.onopen / socket.onclose of a run reported. *)
Fixpoint last_connection (events : list PageEvent) : option bool :=
  match events with
  | [] => None
  | e :: events' =>
      match last_connection events' with
      | Some b => Some b
      | None =>
          match e with
          | SocketOpen => Some true
          | SocketClose => Some false
          | _ => None
          end
      end
  end.

(** ** Sample data *)

Definition btc_long : Signal.t :=
  Signal.mk "BTC" Long 100 5 4 0 "volume spike" None None None.

Definition eth_long : Signal.t :=
  Signal.mk "ETH" Long 20 3 2 (120000) "inflow" None None (Some 7).

Definition proto_signal : Signal.t :=
  Signal.mk "__proto__" Long 100 5 4 0 "volume spike" None None None.

Definition btc_update : SignalUpdate.t := SignalUpdate.mk "BTC" 101 7 600000.

Definition proto_update : SignalUpdate.t := SignalUpdate.mk "__proto__" 5 5 0.

Definition price_update : SignalUpdate.t := SignalUpdate.mk "price" 1 1 1000.

(** A sample decoder: one frame it rejects, one it reads, and a History
    frame whose list is BTC followed by null. *)
Definition sample_parse (frame : string) : Parsed :=
  if String.eqb frame "{not json" then SyntaxError
  else if String.eqb frame "signal:BTC" then Message (Msg_Signal btc_long)
  else if String.eqb frame "history:BTC,null"
       then HistoryThenNull [btc_long] eq_refl
  else UnknownTag.

(** * Properties *)

(** ** The object as a map *)

Lemma has_own_true k o : has_own k o = true <-> exists v, get_own k o = Some v.
Proof.
  unfold has_own. destruct (get_own k o) as [v|]; split; intros H.
  - now exists v.
  - reflexivity.
  - discriminate.
  - destruct H as [v H]. discriminate.
Qed.

Lemma has_own_false k o : has_own k o = false <-> get_own k o = None.
Proof.
  unfold has_own. destruct (get_own k o); split; intros H;
    try reflexivity; discriminate.
Qed.

Lemma get_own_overwrite_same k v o :
  has_own k o = true -> get_own k (overwrite k v o) = Some v.
Proof.
  unfold has_own. induction o as [|[k' v'] rest IH]; simpl.
  - discriminate.
  - destruct (String.eqb k k') eqn:E; simpl; rewrite E; auto.
Qed.

Lemma get_own_overwrite_other k k' v o :
  k' <> k -> get_own k' (overwrite k v o) = get_own k' o.
Proof.
  intros Hne. induction o as [|[k0 v0] rest IH]; simpl; [reflexivity|].
  destruct (String.eqb k k0) eqn:E; simpl.
  - apply String.eqb_eq in E. subst k0. apply String.eqb_neq in Hne.
    now rewrite Hne.
  - now rewrite IH.
Qed.

Lemma get_own_define_same k v o :
  get_own k o = None -> get_own k (define_own k v o) = Some v.
Proof.
  induction o as [|[k' v'] rest IH]; simpl.
  - now rewrite String.eqb_refl.
  - destruct (String.eqb k k') eqn:E; [discriminate|]. intros Hn.
    destruct (enumerates_before k k'); simpl.
    + now rewrite String.eqb_refl.
    + rewrite E. auto.
Qed.

Lemma get_own_define_other k k' v o :
  k' <> k -> get_own k' (define_own k v o) = get_own k' o.
Proof.
  intros Hne. apply String.eqb_neq in Hne.
  induction o as [|[k0 v0] rest IH]; simpl.
  - now rewrite Hne.
  - destruct (enumerates_before k k0); simpl.
    + now rewrite Hne.
    + now rewrite IH.
Qed.

Lemma set_prop_proto v o : set_prop "__proto__" v o = o.
Proof. reflexivity. Qed.

Lemma get_own_set_same k v o :
  k <> "__proto__" -> get_own k (set_prop k v o) = Some v.
Proof.
  intros Hk. unfold set_prop. apply String.eqb_neq in Hk. rewrite Hk.
  destruct (has_own k o) eqn:E.
  - now apply get_own_overwrite_same.
  - apply get_own_define_same. now apply has_own_false.
Qed.

Lemma get_own_set_other k k' v o :
  k' <> k -> get_own k' (set_prop k v o) = get_own k' o.
Proof.
  intros Hne. unfold set_prop.
  destruct (String.eqb k "__proto__"); [reflexivity|].
  destruct (has_own k o).
  - now apply get_own_overwrite_other.
  - now apply get_own_define_other.
Qed.

Lemma get_own_None_keys k o : get_own k o = None <-> ~ In k (keys o).
Proof.
  induction o as [|[k' v'] rest IH]; simpl.
  - tauto.
  - destruct (String.eqb k k') eqn:E.
    + apply String.eqb_eq in E. subst. split; [discriminate|tauto].
    + apply String.eqb_neq in E. rewrite IH. split; intros H.
      * intros [H1|H1]; [congruence|tauto].
      * tauto.
Qed.

Lemma keys_overwrite k v o : keys (overwrite k v o) = keys o.
Proof.
  induction o as [|[k' v'] rest IH]; simpl; [reflexivity|].
  destruct (String.eqb k k'); simpl; [reflexivity|]. now rewrite IH.
Qed.

Lemma keys_define_own k v o : Permutation (keys (define_own k v o)) (k :: keys o).
Proof.
  induction o as [|[k' v'] rest IH]; simpl; [reflexivity|].
  destruct (enumerates_before k k'); simpl; [reflexivity|].
  rewrite IH. apply perm_swap.
Qed.

Lemma keys_mutate_own k f o : keys (mutate_own k f o) = keys o.
Proof.
  induction o as [|[k' v'] rest IH]; simpl; [reflexivity|].
  destruct (String.eqb k k'); simpl; [reflexivity|]. now rewrite IH.
Qed.

Lemma set_prop_one_entry k v o :
  one_entry_per_symbol o -> one_entry_per_symbol (set_prop k v o).
Proof.
  unfold one_entry_per_symbol, set_prop. intros Hnd.
  destruct (String.eqb k "__proto__"); [assumption|].
  destruct (has_own k o) eqn:E.
  - now rewrite keys_overwrite.
  - apply has_own_false, get_own_None_keys in E.
    apply (Permutation_NoDup (l := k :: keys o)).
    + symmetry. apply keys_define_own.
    + now constructor.
Qed.

Lemma get_own_mutate_same k f o :
  get_own k (mutate_own k f o) = option_map f (get_own k o).
Proof.
  induction o as [|[k' v'] rest IH]; simpl; [reflexivity|].
  destruct (String.eqb k k') eqn:E; simpl; rewrite E; auto.
Qed.

Lemma get_own_mutate_other k k' f o :
  k' <> k -> get_own k' (mutate_own k f o) = get_own k' o.
Proof.
  intros Hne. induction o as [|[k0 v0] rest IH]; simpl; [reflexivity|].
  destruct (String.eqb k k0) eqn:E; simpl.
  - apply String.eqb_eq in E. subst k0. apply String.eqb_neq in Hne.
    now rewrite Hne.
  - now rewrite IH.
Qed.

Lemma mutate_own_absent k f o : get_own k o = None -> mutate_own k f o = o.
Proof.
  induction o as [|[k' v'] rest IH]; simpl; [reflexivity|].
  destruct (String.eqb k k'); [discriminate|]. intros H. now rewrite IH.
Qed.


(** ** The handler's effect on the registry *)

Lemma activeSignals_catch c : activeSignals (after (catch c)) = activeSignals (after c).
Proof. now destruct c. Qed.

Lemma stats_catch c : stats (after (catch c)) = stats (after c).
Proof. now destruct c. Qed.

Lemma notifications_catch c :
  notifications (after (catch c)) = notifications (after c).
Proof. now destruct c. Qed.

Lemma catch_never_throws c : exists st, catch c = Normal st.
Proof. destruct c; simpl; eauto. Qed.

Lemma mutate_own_twice_absent k f g o :
  get_own k o = None -> mutate_own k g (mutate_own k f o) = o.
Proof. intros E. now rewrite (mutate_own_absent k f o E), (mutate_own_absent k g o E). Qed.

Lemma activeSignals_handle m st :
  activeSignals (handle m st) = registry_after m (activeSignals st).
Proof.
  unfold handle. rewrite activeSignals_catch.
  destruct m as [s|u|p|h]; simpl; try reflexivity.
  unfold get_prop.
  destruct (get_own (SignalUpdate.symbol u) (activeSignals st)) eqn:E; simpl.
  - reflexivity.
  - rewrite (mutate_own_twice_absent _ _ _ _ E).
    destruct (inherited (SignalUpdate.symbol u) st) as [|s| | |n]; simpl;
      try reflexivity.
    now destruct (truthy_number n).
Qed.

Lemma process_app ev1 ev2 st :
  process (ev1 ++ ev2) st = process ev2 (process ev1 st).
Proof. unfold process. apply fold_left_app. Qed.

Lemma registry_after_one_entry m o :
  one_entry_per_symbol o -> one_entry_per_symbol (registry_after m o).
Proof.
  destruct m as [s|u|p|h]; simpl; intros Hnd.
  - now apply set_prop_one_entry.
  - unfold one_entry_per_symbol. now rewrite !keys_mutate_own.
  - assumption.
  - revert o Hnd. induction h as [|s h IH]; simpl; intros o Ho; [assumption|].
    apply IH. now apply set_prop_one_entry.
Qed.

(** The registry never holds two entries for one symbol. *)
Lemma process_one_entry events t0 :
  one_entry_per_symbol (activeSignals (process events (initial t0))).
Proof.
  induction events as [|m events IH] using rev_ind.
  - simpl. constructor.
  - rewrite process_app. simpl. rewrite activeSignals_handle.
    now apply registry_after_one_entry.
Qed.

(** ** Signal events *)

Lemma handle_signal_stored s st :
  Signal.symbol s <> "__proto__" ->
  get_own (Signal.symbol s) (activeSignals (handle (Msg_Signal s) st)) = Some s.
Proof.
  intros H. rewrite activeSignals_handle. simpl. now apply get_own_set_same.
Qed.

(** Last write wins for every symbol that is an ordinary key: after any run
    of Signal events for [S], the entry for [S] is the payload of the last
    one, whatever its timestamp. *)
Lemma signal_last_write_wins (S : string) sigs last st :
  S <> "__proto__" ->
  Signal.symbol last = S ->
  get_own S (activeSignals (process (map Msg_Signal (sigs ++ [last])) st))
  = Some last.
Proof.
  intros HS Hl. rewrite map_app, process_app. simpl. subst S.
  now apply handle_signal_stored.
Qed.

Lemma handle_signal_proto s st :
  Signal.symbol s = "__proto__" ->
  activeSignals (handle (Msg_Signal s) st) = activeSignals st.
Proof. intros H. rewrite activeSignals_handle. simpl. now rewrite H. Qed.

(** C1, at the symbol [__proto__]: the Signal event is announced but the
    registry has no entry for its symbol afterwards (the assignment
    [activeSignals[signal.symbol] = signal] changes the object's prototype
    and the spread copy drops it), so the entry is not the payload of the
    most recent Signal event. *)
Theorem signal_proto_symbol_not_stored :
  let st := handle (Msg_Signal proto_signal) (initial 0) in
  get_own (Signal.symbol proto_signal) (activeSignals st) = None
  /\ activeSignals st = []
  /\ notifications st = [Toast "Long Signal: __proto__" Long; Beep].
Proof. repeat split. Qed.

(** ** Update events *)

(** C2: an Update for a symbol that has an entry completes normally and
    replaces the price and the volume of that entry by the update's; the
    timestamp, signal_type, avg_volume, reason and the optional metrics of
    the entry stay, as do the entries of all other symbols and the set and
    order of keys. *)
Theorem update_overwrites_price_and_volume_only
    (u : SignalUpdate.t) (st : State) (s : Signal.t) :
  get_own (SignalUpdate.symbol u) (activeSignals st) = Some s ->
  dispatch (Msg_Update u) st = Normal (handle (Msg_Update u) st)
  /\ get_own (SignalUpdate.symbol u) (activeSignals (handle (Msg_Update u) st))
     = Some (Signal.mk (Signal.symbol s) (Signal.signal_type s)
               (SignalUpdate.price u) (SignalUpdate.volume u)
               (Signal.avg_volume s) (Signal.timestamp s) (Signal.reason s)
               (Signal.order_book_ratio s) (Signal.oi s) (Signal.net_inflow s))
  /\ (forall k', k' <> SignalUpdate.symbol u ->
        get_own k' (activeSignals (handle (Msg_Update u) st))
        = get_own k' (activeSignals st))
  /\ keys (activeSignals (handle (Msg_Update u) st)) = keys (activeSignals st).
Proof.
  intros Hs. split; [|rewrite activeSignals_handle; simpl; repeat split].
  - unfold handle. simpl. unfold get_prop. now rewrite Hs.
  - rewrite !get_own_mutate_same, Hs. reflexivity.
  - intros k' Hk'. now rewrite !get_own_mutate_other.
  - now rewrite !keys_mutate_own.
Qed.

Lemma update_overwrites_price_and_volume_only_witness :
  get_own "BTC" (activeSignals (handle (Msg_Signal btc_long) (initial 0)))
  = Some btc_long
  /\ get_own "BTC"
       (activeSignals (handle (Msg_Update btc_update)
                         (handle (Msg_Signal btc_long) (initial 0))))
     = Some (Signal.mk "BTC" Long 101 7 4 0 "volume spike" None None None).
Proof.
  split; [reflexivity|].
  apply (update_overwrites_price_and_volume_only btc_update
           (handle (Msg_Signal btc_long) (initial 0)) btc_long).
  reflexivity.
Defined.

(** An Update for a symbol without an entry never creates or changes one. *)
Lemma orphan_update_registry_unchanged u st :
  get_own (SignalUpdate.symbol u) (activeSignals st) = None ->
  activeSignals (handle (Msg_Update u) st) = activeSignals st.
Proof.
  intros Hn. rewrite activeSignals_handle. simpl.
  now apply mutate_own_twice_absent.
Qed.



(** C3, on two Update frames for symbols that never had an entry.  The
    first, for [__proto__], passes the guard (the read yields
    Object.prototype) and leaves price and volume on Object.prototype.
    The second, for [price], now reads the inherited number 5, passes the
    guard and throws on the write to a primitive: the handler's catch
    logs it with console.error.  The registry is empty throughout. *)
Theorem orphan_update_raises_after_proto_update :
  let st1 := handle (Msg_Update proto_update) (initial 0) in
  activeSignals st1 = []
  /\ get_prop (SignalUpdate.symbol price_update) st1 = inherited_number 5
  /\ dispatch (Msg_Update price_update) st1 = Thrown st1
  /\ console_errors (handle (Msg_Update price_update) st1) = 1%nat
  /\ activeSignals (handle (Msg_Update price_update) st1) = [].
Proof. repeat split. Qed.

(** ** Notifications *)

Lemma history_as_signals h st :
  activeSignals (handle (Msg_History h) st)
  = activeSignals (process (map Msg_Signal h) st).
Proof.
  rewrite activeSignals_handle. simpl. revert st.
  induction h as [|s h IH]; intros st; simpl; [reflexivity|].
  rewrite <- IH. now rewrite activeSignals_handle.
Qed.

(** A Signal event appends exactly one toast (for its type and symbol)
    and one beep to the notifications and puts that toast on display; a
    History event notifies nothing and leaves the toast on display alone,
    for every history list, and acts on the registry like the same
    signals arriving as Signal events. *)
Lemma signal_notifies_once_history_never :
  (forall s st,
      notifications (handle (Msg_Signal s) st)
      = (notifications st
          ++ [Toast (SignalType_string (Signal.signal_type s)
                       ++ " Signal: " ++ Signal.symbol s)%string
                (Signal.signal_type s); Beep])%list
      /\ toasts (handle (Msg_Signal s) st) = S (toasts st)
      /\ beeps (handle (Msg_Signal s) st) = S (beeps st)
      /\ toastMessage (handle (Msg_Signal s) st)
         = Some (SignalType_string (Signal.signal_type s)
                   ++ " Signal: " ++ Signal.symbol s)%string
      /\ toastType (handle (Msg_Signal s) st) = Signal.signal_type s)
  /\ (forall h st,
         notifications (handle (Msg_History h) st) = notifications st
         /\ toastMessage (handle (Msg_History h) st) = toastMessage st
         /\ toastType (handle (Msg_History h) st) = toastType st
         /\ activeSignals (handle (Msg_History h) st)
            = activeSignals (process (map Msg_Signal h) st)).
Proof.
  split.
  - intros s st. repeat split.
    + simpl. now rewrite <- app_assoc.
    + unfold toasts. simpl. rewrite !filter_app, !length_app. simpl. lia.
    + unfold beeps. simpl. rewrite !filter_app, !length_app. simpl. lia.
  - intros h st. repeat split. apply history_as_signals.
Qed.

(** C6, on a History list that holds a signal with the symbol [__proto__].
    Nothing is notified, as the claim says, and the signal for BTC is
    stored; the signal for [__proto__] is not: the assignment
    [activeSignals[s.symbol] = s] of the loop changes the object's
    prototype and creates no property, and the spread copy after the loop
    drops it.  That element of the list is not upserted. *)
Theorem history_proto_symbol_not_stored :
  let st := handle (Msg_History [proto_signal; btc_long]) (initial 0) in
  notifications st = []
  /\ get_own (Signal.symbol btc_long) (activeSignals st) = Some btc_long
  /\ get_own (Signal.symbol proto_signal) (activeSignals st) = None
  /\ activeSignals st = [("BTC", btc_long)].
Proof. repeat split. Qed.

(** ** Frames that do not decode *)

Lemma onmessage_never_throws JSON_parse frame st :
  exists st', onmessage JSON_parse frame st = Normal st'.
Proof. apply catch_never_throws. Qed.

Lemma onmessage_message JSON_parse frame m st :
  JSON_parse frame = Message m ->
  after (onmessage JSON_parse frame st) = handle m st.
Proof. intros H. unfold onmessage, handle. now rewrite H. Qed.

(** The registry after a frame depends on the registry before it only. *)
Lemma activeSignals_onmessage_indep JSON_parse frame st st' :
  activeSignals st = activeSignals st' ->
  activeSignals (after (onmessage JSON_parse frame st))
  = activeSignals (after (onmessage JSON_parse frame st')).
Proof.
  intros H. unfold onmessage.
  destruct (JSON_parse frame) as [| |m| | |stored Hord]; simpl; try assumption.
  - fold (handle m st). fold (handle m st').
    now rewrite !activeSignals_handle, H.
  - now rewrite H.
Qed.

(** C7, as amended: a frame that JSON.parse rejects, that is [null], whose
    tag is none of the four, or whose payload is [null] under the tag
    Signal, Update or History is dropped: the handler completes normally
    (an exception is caught), the registry and the stats are as before,
    and no notification is raised.  Whatever frame comes next leaves the
    registry as if the bad frame had never arrived; for a Signal frame
    that is the old registry with that signal stored. *)
Theorem undecodable_frame_is_discarded
    (JSON_parse : string -> Parsed) (frame : string) (st : State) :
  fails_to_decode (JSON_parse frame) ->
  (exists st', onmessage JSON_parse frame st = Normal st'
               /\ activeSignals st' = activeSignals st
               /\ stats st' = stats st
               /\ notifications st' = notifications st)
  /\ (forall next,
         activeSignals (receive JSON_parse [frame; next] st)
         = activeSignals (receive JSON_parse [next] st))
  /\ (forall next signal,
         JSON_parse next = Message (Msg_Signal signal) ->
         activeSignals (receive JSON_parse [frame; next] st)
         = set_prop (Signal.symbol signal) signal (activeSignals st)).
Proof.
  intros Hbad.
  assert (Hreg : activeSignals (after (onmessage JSON_parse frame st))
                 = activeSignals st).
  { unfold onmessage. destruct Hbad as [H|[H|[H|H]]]; rewrite H; reflexivity. }
  assert (Hnext : forall next,
             activeSignals (receive JSON_parse [frame; next] st)
             = activeSignals (receive JSON_parse [next] st)).
  { intros next. simpl. now apply activeSignals_onmessage_indep. }
  split; [|split].
  - unfold onmessage. destruct Hbad as [H|[H|[H|H]]]; rewrite H; simpl;
      eexists; repeat split.
  - exact Hnext.
  - intros next signal Hn. rewrite Hnext. simpl.
    rewrite (onmessage_message _ _ _ _ Hn). now rewrite activeSignals_handle.
Qed.

Lemma undecodable_frame_is_discarded_witness :
  fails_to_decode (sample_parse "{not json")
  /\ activeSignals (receive sample_parse ["{not json"; "signal:BTC"] (initial 0))
     = [("BTC", btc_long)].
Proof.
  assert (Hbad : fails_to_decode (sample_parse "{not json"))
    by (left; reflexivity).
  split; [exact Hbad|].
  destruct (undecodable_frame_is_discarded sample_parse "{not json"
              (initial 0) Hbad) as (_ & _ & Hsignal).
  apply (Hsignal "signal:BTC" btc_long). reflexivity.
Defined.

(** C7 as stated fails on a frame with a known tag and a malformed
    payload: a History frame whose list is the BTC signal followed by
    [null].  The loop stores BTC, then throws on the null; the exception is
    caught and logged, and the registry is no longer what it was. *)
Lemma malformed_history_is_not_discarded :
  let st := after (onmessage sample_parse "history:BTC,null" (initial 0)) in
  (exists thrown,
      try_block (sample_parse "history:BTC,null") (initial 0) = Thrown thrown)
  /\ console_errors st = 1%nat
  /\ activeSignals st = [("BTC", btc_long)]
  /\ activeSignals st <> activeSignals (initial 0).
Proof.
  split; [eexists; reflexivity|]. repeat split. discriminate.
Qed.

(** ** clearHistory and the stats cell *)

(** C8: clearHistory leaves no entry, whatever the registry held, and an
    Update that follows it (for a symbol that had an entry, or any other)
    leaves the registry empty: the entry is not created again. *)
Theorem clear_then_update_is_noop (st : State) :
  activeSignals (clearHistory st) = []
  /\ forall u : SignalUpdate.t,
       activeSignals (handle (Msg_Update u) (clearHistory st)) = []
       /\ get_own (SignalUpdate.symbol u)
            (activeSignals (handle (Msg_Update u) (clearHistory st))) = None.
Proof.
  split; [reflexivity|]. intros u.
  rewrite orphan_update_registry_unchanged; repeat split.
Qed.

(** C9: before any message the stats cell is
    [{ total_signals: 0, win_rate: 0, top_gainer: '---' }], and a Stats
    event makes the cell equal to its payload, all three fields at once. *)
Theorem stats_initial_and_replaced :
  (forall t0, stats (initial t0) = Stats.mk 0 0 "---")
  /\ (forall payload st, stats (handle (Msg_Stats payload) st) = payload).
Proof. split; reflexivity. Qed.

Lemma stats_handle_registry_event m st :
  (forall p, m <> Msg_Stats p) -> stats (handle m st) = stats st.
Proof.
  intros H. unfold handle. rewrite stats_catch.
  destruct m as [s|u|p|h]; simpl; try reflexivity.
  - destruct (get_prop (SignalUpdate.symbol u) st) as [| | | |n];
      try reflexivity.
    now destruct (truthy_number n).
  - now destruct (H p).
Qed.

(** C10: a Stats event leaves the registry as it was; Signal, Update and
    History events leave the stats cell as it was; clearHistory empties
    the registry and leaves the stats cell as it was. *)
Theorem registry_and_stats_are_isolated (st : State) :
  (forall payload, activeSignals (handle (Msg_Stats payload) st) = activeSignals st)
  /\ (forall signal, stats (handle (Msg_Signal signal) st) = stats st)
  /\ (forall update, stats (handle (Msg_Update update) st) = stats st)
  /\ (forall history, stats (handle (Msg_History history) st) = stats st)
  /\ stats (clearHistory st) = stats st
  /\ activeSignals (clearHistory st) = [].
Proof.
  repeat split; intros; try reflexivity;
    apply stats_handle_registry_event; intros p; discriminate.
Qed.

(** ** The sorted list and the active feed *)

Lemma Qltb_lt a b : Qltb a b = true <-> a < b.
Proof.
  unfold Qltb. rewrite Qlt_alt. destruct (a ?= b); split; congruence.
Qed.

Section SortFacts.
Variable A : Type.
Variable compare : A -> A -> number.

Lemma sort_insert_perm x l : Permutation (sort_insert compare x l) (x :: l).
Proof.
  induction l as [|y l IH]; simpl; [reflexivity|].
  destruct (Qle_bool (compare x y) 0); [reflexivity|].
  rewrite IH. apply perm_swap.
Qed.

Lemma Array_sort_perm l : Permutation (Array_sort compare l) l.
Proof.
  induction l as [|x l IH]; simpl; [reflexivity|].
  rewrite sort_insert_perm. now constructor.
Qed.
End SortFacts.

Lemma filter_perm (A : Type) (f : A -> bool) l l' :
  Permutation l l' -> Permutation (filter f l) (filter f l').
Proof.
  induction 1 as [|x l l' _ IH|x y l|l l' l'' _ IH1 _ IH2]; simpl.
  - reflexivity.
  - destruct (f x); [now constructor|assumption].
  - destruct (f x), (f y); try reflexivity. apply perm_swap.
  - now transitivity (filter f l').
Qed.

Lemma filter_sorted (A : Type) (R : A -> A -> Prop) (f : A -> bool) l :
  StronglySorted R l -> StronglySorted R (filter f l).
Proof.
  induction 1 as [|x l Hl IH Hx]; simpl; [constructor|].
  destruct (f x); [|assumption].
  constructor; [assumption|].
  rewrite Forall_forall in *. intros y Hy. apply filter_In in Hy.
  now apply Hx.
Qed.

Lemma sort_insert_newer_first x l :
  StronglySorted newer_first l ->
  StronglySorted newer_first (sort_insert by_timestamp_desc x l).
Proof.
  induction 1 as [|y l Hl IH Hy]; simpl.
  - repeat constructor.
  - destruct (Qle_bool (by_timestamp_desc x y) 0) eqn:E.
    + apply Qle_bool_iff in E. unfold by_timestamp_desc in E.
      assert (Hxy : newer_first x y) by (unfold newer_first; lra).
      constructor; [now constructor|].
      constructor; [assumption|].
      rewrite Forall_forall in *. intros z Hz. specialize (Hy z Hz).
      unfold newer_first in *. lra.
    + assert (Hyx : newer_first y x).
      { unfold newer_first, by_timestamp_desc in *.
        destruct (Qlt_le_dec 0 (Signal.timestamp y - Signal.timestamp x))
          as [Hlt|Hle]; [lra|].
        apply Qle_bool_iff in Hle. congruence. }
      constructor; [assumption|].
      rewrite Forall_forall in *. intros z Hz.
      apply (Permutation_in _ (sort_insert_perm _ by_timestamp_desc x l)) in Hz.
      destruct Hz as [<-|Hz]; auto.
Qed.

Lemma sortedActiveSignals_newer_first st :
  StronglySorted newer_first (sortedActiveSignals st).
Proof.
  unfold sortedActiveSignals.
  induction (Object_values (activeSignals st)) as [|x l IH]; simpl.
  - constructor.
  - now apply sort_insert_newer_first.
Qed.

Lemma sortedActiveSignals_perm st :
  Permutation (sortedActiveSignals st) (Object_values (activeSignals st)).
Proof. apply Array_sort_perm. Qed.

(** C4: the active feed holds exactly the registry entries whose age
    [now - timestamp] is below 60 minutes (each as often as the registry
    holds it, an entry aged exactly 60 minutes not among them), most recent
    first. *)
Theorem activeFeed_recent_entries_newest_first (st : State) :
  (forall s, In s (activeFeed st)
             <-> In s (Object_values (activeSignals st))
                 /\ now st - Signal.timestamp s < 60 * 60 * 1000)
  /\ Permutation (activeFeed st)
       (filter (is_recent st) (Object_values (activeSignals st)))
  /\ (forall s, now st - Signal.timestamp s == 60 * 60 * 1000 ->
                ~ In s (activeFeed st))
  /\ StronglySorted newer_first (activeFeed st).
Proof.
  assert (Hin : forall s, In s (activeFeed st)
                  <-> In s (Object_values (activeSignals st))
                      /\ now st - Signal.timestamp s < 60 * 60 * 1000).
  { intros s. unfold activeFeed. rewrite filter_In.
    unfold is_recent. rewrite Qltb_lt.
    split; intros [H1 H2]; split; try assumption.
    - apply (Permutation_in _ (sortedActiveSignals_perm st)), H1.
    - apply (Permutation_in _ (Permutation_sym (sortedActiveSignals_perm st))), H1. }
  split; [exact Hin|]. split; [|split].
  - apply filter_perm, sortedActiveSignals_perm.
  - intros s Hage Hs. apply Hin in Hs. destruct Hs as [_ Hlt].
    rewrite Hage in Hlt. now apply Qlt_irrefl in Hlt.
  - apply filter_sorted, sortedActiveSignals_newer_first.
Qed.

(** The feed of a small run, one hour after the first signal. *)
Example activeFeed_sample :
  map Signal.symbol
    (activeFeed (tick 3600000
       (process [Msg_Signal btc_long; Msg_Signal eth_long] (initial 0))))
  = ["ETH"].
Proof. reflexivity. Qed.

(** ** getProgress *)

Lemma progress_ratio (elapsed : number) :
  elapsed / (60 * 60 * 1000) * 100 == elapsed * (1 # 36000).
Proof. field. Qed.

Lemma getProgress_le_100 st timestamp : getProgress st timestamp <= 100.
Proof. unfold getProgress. apply Q.le_min_l. Qed.

(** getProgress never decreases as the elapsed time grows, across
    timestamps and clock readings alike. *)
Lemma getProgress_monotone st st' t t' :
  now st - t <= now st' - t' -> getProgress st t <= getProgress st' t'.
Proof.
  intros H. unfold getProgress. apply Q.min_le_compat_l.
  rewrite !progress_ratio. lra.
Qed.

Lemma getProgress_nonneg st timestamp :
  timestamp <= now st -> 0 <= getProgress st timestamp.
Proof.
  intros H. unfold getProgress. apply Q.min_glb; [lra|].
  rewrite progress_ratio. lra.
Qed.

Lemma getProgress_values st timestamp :
  (now st - timestamp == 0 -> getProgress st timestamp == 0)
  /\ (now st - timestamp == 30 * 60 * 1000 -> getProgress st timestamp == 50)
  /\ (60 * 60 * 1000 <= now st - timestamp -> getProgress st timestamp == 100).
Proof.
  unfold getProgress. repeat split; intros H.
  - rewrite Q.min_r; rewrite progress_ratio; lra.
  - rewrite Q.min_r; rewrite progress_ratio; lra.
  - rewrite Q.min_l; [reflexivity|]. rewrite progress_ratio. lra.
Qed.

Lemma getProgress_negative st timestamp :
  now st < timestamp -> getProgress st timestamp < 0.
Proof.
  intros H. unfold getProgress.
  apply Qle_lt_trans with (y := (now st - timestamp) / (60 * 60 * 1000) * 100).
  - apply Q.le_min_r.
  - rewrite progress_ratio. lra.
Qed.

(** C5, at a timestamp one second ahead of [now] (the component refreshes
    [now] once per second, so a signal stamped since the last tick is ahead
    of it): getProgress is [-100/3600], below the interval [0,100].  The
    value is only capped at 100 from above. *)
Theorem getProgress_negative_for_future_timestamp :
  getProgress (initial 0) 1000 == - (1 # 36)
  /\ getProgress (initial 0) 1000 < 0.
Proof. split; reflexivity. Qed.

(** ** Runs through the handler *)

(** Object.values walks array-index keys first, in numeric order, then the
    other keys in creation order; a second Signal for a symbol keeps the
    symbol's place. *)
Example Object_values_order :
  keys (activeSignals
          (process
             [Msg_Signal btc_long;
              Msg_Signal (Signal.mk "7" Short 1 1 1 0 "spike" None None None);
              Msg_Signal eth_long;
              Msg_Signal (Signal.mk "10" Long 1 1 1 0 "spike" None None None);
              Msg_Signal btc_long] (initial 0)))
  = ["7"; "10"; "BTC"; "ETH"].
Proof. reflexivity. Qed.

(** Entries with equal timestamps keep their Object.values order. *)
Example sort_is_stable :
  map Signal.symbol
    (sortedActiveSignals
       (process [Msg_Signal btc_long; Msg_Signal eth_long;
                 Msg_Signal (Signal.mk "SOL" Short 9 1 1 0 "spike" None None None)]
          (initial 0)))
  = ["ETH"; "BTC"; "SOL"].
Proof. reflexivity. Qed.

(** Signal for BTC at t = 0, an Update ten minutes later, then Stats: the
    feed shows BTC once, with the original timestamp and the new price. *)
Example signal_update_stats_run :
  let st := tick 600000
              (process [Msg_Signal btc_long; Msg_Update btc_update;
                        Msg_Stats (Stats.mk 1 100 "BTC")] (initial 0)) in
  activeFeed st
  = [Signal.mk "BTC" Long 101 7 4 0 "volume spike" None None None]
  /\ stats st = Stats.mk 1 100 "BTC"
  /\ getProgress st 0 == 100 # 6.
Proof. repeat split. Qed.

(** * Further properties of the component *)

(** ** Invariants of the registry over whole runs *)

Lemma run_app ev1 ev2 st : run (ev1 ++ ev2) st = run ev2 (run ev1 st).
Proof. unfold run. apply fold_left_app. Qed.

Lemma activeSignals_step_message m st :
  activeSignals (step (SocketMessage (Message m)) st)
  = registry_after m (activeSignals st).
Proof. apply (activeSignals_handle m st). Qed.

Lemma has_own_keys k o : has_own k o = true <-> In k (keys o).
Proof.
  destruct (has_own k o) eqn:E.
  - split; [intros _|reflexivity].
    destruct (in_dec string_dec k (keys o)) as [Hin|Hn]; [assumption|].
    apply get_own_None_keys, has_own_false in Hn. congruence.
  - split; [discriminate|]. intros Hin.
    apply has_own_false, get_own_None_keys in E. contradiction.
Qed.

Lemma get_own_filed k v o :
  filed_under_symbol o -> get_own k o = Some v -> Signal.symbol v = k.
Proof.
  induction 1 as [|[k' v'] rest Hh _ IH]; simpl; [discriminate|].
  destruct (String.eqb k k') eqn:E.
  - apply String.eqb_eq in E. intros [= <-]. simpl in Hh. congruence.
  - exact IH.
Qed.

Lemma overwrite_filed k v o :
  Signal.symbol v = k -> filed_under_symbol o ->
  filed_under_symbol (overwrite k v o).
Proof.
  intros Hv. induction 1 as [|[k' v'] rest Hh Hrest IH]; simpl.
  - constructor.
  - destruct (String.eqb k k') eqn:E.
    + apply String.eqb_eq in E. constructor; [simpl; congruence|assumption].
    + constructor; assumption.
Qed.

Lemma define_own_filed k v o :
  Signal.symbol v = k -> filed_under_symbol o ->
  filed_under_symbol (define_own k v o).
Proof.
  intros Hv. induction 1 as [|[k' v'] rest Hh Hrest IH]; simpl.
  - repeat constructor. exact Hv.
  - destruct (enumerates_before k k'); repeat constructor; assumption.
Qed.

Lemma set_prop_filed s o :
  filed_under_symbol o -> filed_under_symbol (set_prop (Signal.symbol s) s o).
Proof.
  intros H. unfold set_prop.
  destruct (String.eqb (Signal.symbol s) "__proto__"); [assumption|].
  destruct (has_own (Signal.symbol s) o).
  - now apply overwrite_filed.
  - now apply define_own_filed.
Qed.

Lemma mutate_own_filed k f o :
  (forall s, Signal.symbol (f s) = Signal.symbol s) ->
  filed_under_symbol o -> filed_under_symbol (mutate_own k f o).
Proof.
  intros Hf. induction 1 as [|[k' v'] rest Hh Hrest IH]; simpl.
  - constructor.
  - destruct (String.eqb k k'); constructor; simpl in *;
      try assumption. now rewrite Hf.
Qed.

Lemma keys_set_prop k v o :
  forall k', In k' (keys (set_prop k v o))
             <-> In k' (keys o) \/ (k' = k /\ k <> "__proto__").
Proof.
  intros k'. unfold set_prop.
  destruct (String.eqb k "__proto__") eqn:Ep.
  - apply String.eqb_eq in Ep. tauto.
  - apply String.eqb_neq in Ep. destruct (has_own k o) eqn:E.
    + rewrite keys_overwrite. apply has_own_keys in E.
      split; [tauto|]. intros [H|[-> _]]; assumption.
    + split.
      * intros H. apply (Permutation_in _ (keys_define_own k v o)) in H.
        destruct H as [<-|H]; tauto.
      * intros H.
        apply (Permutation_in _ (Permutation_sym (keys_define_own k v o))).
        simpl. destruct H as [H|[-> _]]; tauto.
Qed.

Lemma registry_after_well_formed m o :
  well_formed o -> well_formed (registry_after m o).
Proof.
  intros (Hnd & Hf). split; [now apply registry_after_one_entry|].
  destruct m as [s|u|p|h]; simpl.
  - now apply set_prop_filed.
  - apply mutate_own_filed; [reflexivity|].
    apply mutate_own_filed; [reflexivity|assumption].
  - assumption.
  - clear Hnd. revert o Hf.
    induction h as [|s h IH]; simpl; intros o Hf; [assumption|].
    apply IH. now apply set_prop_filed.
Qed.

Lemma step_well_formed e st :
  well_formed (activeSignals st) -> well_formed (activeSignals (step e st)).
Proof.
  intros H. destruct e as [| |p|t|]; simpl; try assumption.
  - destruct p as [| |m| | |stored Hord]; try assumption.
    + change (well_formed (activeSignals (handle m st))).
      rewrite activeSignals_handle. now apply registry_after_well_formed.
    + (* the signals in front of the null are stored as History stores them *)
      apply (registry_after_well_formed (Msg_History stored)), H.
  - split; constructor.
Qed.

Lemma run_well_formed events st :
  well_formed (activeSignals st) -> well_formed (activeSignals (run events st)).
Proof.
  revert st. induction events as [|e events IH]; intros st H; [assumption|].
  apply (IH (step e st)). now apply step_well_formed.
Qed.

Lemma initial_well_formed t0 : well_formed (activeSignals (initial t0)).
Proof. split; constructor. Qed.

(** Whatever happens on the page after mount (frames of the declared type
    or not, ticks, reconnects, clicks on Clear), the registry holds at most
    one entry per symbol and every entry sits under its own symbol. *)
Theorem registry_always_well_formed (events : list PageEvent) (t0 : number) :
  well_formed (activeSignals (run events (initial t0))).
Proof. apply run_well_formed, initial_well_formed. Qed.

Lemma Object_values_symbols o :
  filed_under_symbol o -> map Signal.symbol (Object_values o) = keys o.
Proof.
  unfold Object_values, keys.
  induction 1 as [|[k v] rest Hh _ IH]; simpl; [reflexivity|].
  simpl in Hh. now rewrite Hh, IH.
Qed.

Lemma NoDup_map_filter (A B : Type) (f : A -> B) (p : A -> bool) l :
  NoDup (map f l) -> NoDup (map f (filter p l)).
Proof.
  induction l as [|x l IH]; simpl; intros H; [constructor|].
  inversion H as [|? ? Hx Hl]; subst. destruct (p x); simpl; [|auto].
  constructor; [|auto]. intros Hin. apply Hx.
  apply in_map_iff in Hin. destruct Hin as [y [Hy Hin]].
  apply filter_In in Hin. apply in_map_iff. exists y. tauto.
Qed.

(** The keyed each block of the live feed never meets the same key twice:
    in every state the page can reach, the symbols of the cards (and of
    the rows of the history table) are pairwise distinct. *)
Theorem feed_symbols_distinct (events : list PageEvent) (t0 : number) :
  NoDup (map Signal.symbol (activeFeed (run events (initial t0))))
  /\ NoDup (map Signal.symbol (sortedActiveSignals (run events (initial t0)))).
Proof.
  destruct (run_well_formed events (initial t0) (initial_well_formed t0))
    as (Hnd & Hf).
  set (st := run events (initial t0)) in *.
  assert (H : NoDup (map Signal.symbol (sortedActiveSignals st))).
  { apply (Permutation_NoDup (l := map Signal.symbol (Object_values (activeSignals st)))).
    - apply Permutation_map, Permutation_sym, sortedActiveSignals_perm.
    - now rewrite Object_values_symbols. }
  split; [|exact H]. unfold activeFeed. now apply NoDup_map_filter.
Qed.

(** ** History frames *)

Lemma get_own_set_prop k k' v o :
  get_own k' (set_prop k v o)
  = if String.eqb k k' && negb (String.eqb k "__proto__") then Some v
    else get_own k' o.
Proof.
  destruct (String.eqb k k') eqn:E; simpl.
  - apply String.eqb_eq in E. subst k'.
    destruct (String.eqb k "__proto__") eqn:Ep; simpl.
    + apply String.eqb_eq in Ep. now subst k.
    + apply String.eqb_neq in Ep. now apply get_own_set_same.
  - apply String.eqb_neq in E. apply get_own_set_other. congruence.
Qed.

Lemma get_own_history k h o :
  get_own k (registry_after (Msg_History h) o)
  = if String.eqb k "__proto__" then get_own k o
    else match last_for k h with
         | Some s => Some s
         | None => get_own k o
         end.
Proof.
  simpl. revert o. induction h as [|s h IH]; intros o; simpl.
  - now destruct (String.eqb k "__proto__").
  - rewrite IH, get_own_set_prop.
    destruct (String.eqb k "__proto__") eqn:Ep.
    + apply String.eqb_eq in Ep. subst k.
      destruct (String.eqb (Signal.symbol s) "__proto__"); reflexivity.
    + destruct (last_for k h); [reflexivity|].
      destruct (String.eqb (Signal.symbol s) k) eqn:E; simpl; [|reflexivity].
      apply String.eqb_eq in E. rewrite E, Ep. reflexivity.
Qed.

(** After a History frame, the entry of a symbol that occurs in the list
    is the last signal of the list with that symbol (whatever was stored
    or updated before), and the entry of a symbol that does not occur is
    the one from before the frame. *)
Theorem history_last_occurrence_wins
    (h : list Signal.t) (st : State) (k : string) :
  k <> "__proto__" ->
  get_own k (activeSignals (handle (Msg_History h) st))
  = match last_for k h with
    | Some s => Some s
    | None => get_own k (activeSignals st)
    end.
Proof.
  intros Hk. rewrite activeSignals_handle, get_own_history.
  apply String.eqb_neq in Hk. now rewrite Hk.
Qed.

Lemma history_last_occurrence_wins_witness :
  get_own "BTC"
    (activeSignals
       (handle (Msg_History [btc_long; eth_long;
                             Signal.mk "BTC" Short 90 8 4 60000 "sell wall"
                               None None None])
          (handle (Msg_Signal btc_long) (initial 0))))
  = Some (Signal.mk "BTC" Short 90 8 4 60000 "sell wall" None None None).
Proof.
  apply (history_last_occurrence_wins
           [btc_long; eth_long;
            Signal.mk "BTC" Short 90 8 4 60000 "sell wall" None None None]
           (handle (Msg_Signal btc_long) (initial 0)) "BTC").
  discriminate.
Defined.

Lemma last_for_in s h : In s h -> last_for (Signal.symbol s) h <> None.
Proof.
  induction h as [|s' h IH]; simpl; [tauto|].
  intros [->|Hin].
  - destruct (last_for (Signal.symbol s) h); [discriminate|].
    now rewrite String.eqb_refl.
  - specialize (IH Hin). destruct (last_for (Signal.symbol s) h);
      [discriminate|tauto].
Qed.

Lemma keys_history_present h o :
  (forall s, In s h ->
             Signal.symbol s = "__proto__" \/ In (Signal.symbol s) (keys o)) ->
  keys (registry_after (Msg_History h) o) = keys o.
Proof.
  simpl. revert o. induction h as [|s h IH]; intros o Hall; simpl; [reflexivity|].
  assert (Hk : keys (set_prop (Signal.symbol s) s o) = keys o).
  { unfold set_prop.
    destruct (String.eqb (Signal.symbol s) "__proto__") eqn:Ep; [reflexivity|].
    apply String.eqb_neq in Ep.
    destruct (Hall s (or_introl eq_refl)) as [H|H]; [contradiction|].
    apply has_own_keys in H. rewrite H. apply keys_overwrite. }
  rewrite IH; [exact Hk|].
  intros s' Hs'. rewrite Hk. apply Hall. now right.
Qed.

Lemma registry_ext o1 o2 :
  keys o1 = keys o2 -> NoDup (keys o1) ->
  (forall k, get_own k o1 = get_own k o2) -> o1 = o2.
Proof.
  revert o2. induction o1 as [|[k v] r1 IH]; intros [|[k2 v2] r2]; simpl;
    try discriminate; [reflexivity|].
  intros [= <- Hk] Hnd Hget. inversion Hnd as [|? ? Hnot Hnd']; subst.
  assert (Hv : v = v2).
  { specialize (Hget k). simpl in Hget. rewrite String.eqb_refl in Hget.
    congruence. }
  subst v2. f_equal. apply IH; try assumption.
  intros k'. destruct (String.eqb k' k) eqn:E.
  - apply String.eqb_eq in E. subst k'.
    assert (H1 : get_own k r1 = None) by now apply get_own_None_keys.
    assert (H2 : get_own k r2 = None)
      by (apply get_own_None_keys; now rewrite <- Hk).
    congruence.
  - specialize (Hget k'). simpl in Hget. now rewrite E in Hget.
Qed.

(** Replaying a History frame (the backlog sent again on a reconnect)
    changes nothing: the registry after the second copy is the registry
    after the first, entries and order. *)
Theorem history_replay_is_idempotent (h : list Signal.t) (st : State) :
  one_entry_per_symbol (activeSignals st) ->
  activeSignals (handle (Msg_History h) (handle (Msg_History h) st))
  = activeSignals (handle (Msg_History h) st).
Proof.
  intros Hnd. rewrite !activeSignals_handle.
  set (o := activeSignals st) in *.
  set (o' := registry_after (Msg_History h) o).
  assert (Hnd' : one_entry_per_symbol o') by now apply registry_after_one_entry.
  assert (Hkeys : keys (registry_after (Msg_History h) o') = keys o').
  { apply keys_history_present. intros s Hs.
    destruct (string_dec (Signal.symbol s) "__proto__") as [Hp|Hp];
      [now left|right].
    apply has_own_keys, has_own_true. unfold o'.
    rewrite get_own_history. apply String.eqb_neq in Hp. rewrite Hp.
    pose proof (last_for_in s h Hs) as Hl.
    destruct (last_for (Signal.symbol s) h) as [s'|]; [eauto|contradiction]. }
  apply registry_ext.
  - exact Hkeys.
  - unfold one_entry_per_symbol in Hnd'. now rewrite Hkeys.
  - intros k. unfold o'. rewrite !get_own_history.
    destruct (String.eqb k "__proto__"); [reflexivity|].
    now destruct (last_for k h).
Qed.

Lemma history_replay_is_idempotent_witness :
  activeSignals (handle (Msg_History [btc_long; eth_long])
                   (handle (Msg_History [btc_long; eth_long]) (initial 0)))
  = activeSignals (handle (Msg_History [btc_long; eth_long]) (initial 0)).
Proof.
  apply (history_replay_is_idempotent [btc_long; eth_long] (initial 0)).
  constructor.
Defined.

(** ** Update frames *)

Lemma mutate_own_compose k f g o :
  mutate_own k f (mutate_own k g o) = mutate_own k (fun s => f (g s)) o.
Proof.
  induction o as [|[k' v] rest IH]; simpl; [reflexivity|].
  destruct (String.eqb k k') eqn:E; simpl; rewrite E; [reflexivity|].
  now rewrite IH.
Qed.

Lemma mutate_own_ext k f g o :
  (forall s, f s = g s) -> mutate_own k f o = mutate_own k g o.
Proof.
  intros H. induction o as [|[k' v] rest IH]; simpl; [reflexivity|].
  destruct (String.eqb k k'); [now rewrite H|now rewrite IH].
Qed.

Lemma mutate_own_commute k1 k2 f g o :
  k1 <> k2 ->
  mutate_own k1 f (mutate_own k2 g o) = mutate_own k2 g (mutate_own k1 f o).
Proof.
  intros Hne. induction o as [|[k' v] rest IH]; simpl; [reflexivity|].
  destruct (String.eqb k1 k') eqn:E1, (String.eqb k2 k') eqn:E2; simpl;
    rewrite ?E1, ?E2; try reflexivity.
  - apply String.eqb_eq in E1, E2. congruence.
  - now rewrite IH.
Qed.

(** Of two Updates for one symbol only the second is left in the
    registry: it is as if the first had not arrived. *)
Theorem later_update_overrides_earlier (u1 u2 : SignalUpdate.t) (st : State) :
  SignalUpdate.symbol u1 = SignalUpdate.symbol u2 ->
  activeSignals (handle (Msg_Update u2) (handle (Msg_Update u1) st))
  = activeSignals (handle (Msg_Update u2) st).
Proof.
  intros Hk. rewrite !activeSignals_handle. simpl. rewrite Hk.
  rewrite !mutate_own_compose. now apply mutate_own_ext.
Qed.

Lemma later_update_overrides_earlier_witness :
  activeSignals
    (handle (Msg_Update (SignalUpdate.mk "BTC" 103 9 900000))
       (handle (Msg_Update btc_update) (handle (Msg_Signal btc_long) (initial 0))))
  = activeSignals
      (handle (Msg_Update (SignalUpdate.mk "BTC" 103 9 900000))
         (handle (Msg_Signal btc_long) (initial 0))).
Proof.
  apply (later_update_overrides_earlier btc_update
           (SignalUpdate.mk "BTC" 103 9 900000)
           (handle (Msg_Signal btc_long) (initial 0))).
  reflexivity.
Defined.

(** Updates for different symbols do not interfere: either order leaves
    the same registry. *)
Theorem updates_of_different_symbols_commute
    (u1 u2 : SignalUpdate.t) (st : State) :
  SignalUpdate.symbol u1 <> SignalUpdate.symbol u2 ->
  activeSignals (handle (Msg_Update u2) (handle (Msg_Update u1) st))
  = activeSignals (handle (Msg_Update u1) (handle (Msg_Update u2) st)).
Proof.
  intros Hne. rewrite !activeSignals_handle. simpl.
  repeat rewrite (mutate_own_commute (SignalUpdate.symbol u2)
                    (SignalUpdate.symbol u1)) by congruence.
  reflexivity.
Qed.

Lemma updates_of_different_symbols_commute_witness :
  activeSignals
    (handle (Msg_Update (SignalUpdate.mk "ETH" 21 4 900000))
       (handle (Msg_Update btc_update)
          (handle (Msg_History [btc_long; eth_long]) (initial 0))))
  = activeSignals
      (handle (Msg_Update btc_update)
         (handle (Msg_Update (SignalUpdate.mk "ETH" 21 4 900000))
            (handle (Msg_History [btc_long; eth_long]) (initial 0)))).
Proof.
  apply (updates_of_different_symbols_commute btc_update
           (SignalUpdate.mk "ETH" 21 4 900000)
           (handle (Msg_History [btc_long; eth_long]) (initial 0))).
  discriminate.
Defined.

(** ** The two lists under Update frames *)

Lemma now_handle m st : now (handle m st) = now st.
Proof.
  unfold handle. destruct m as [s|u|p|h]; simpl; try reflexivity.
  destruct (get_prop (SignalUpdate.symbol u) st) as [| | | |n];
    try reflexivity.
  now destruct (truthy_number n).
Qed.

Lemma Object_values_mutate_own k f o :
  (forall s, same_origin (f s) s) ->
  Forall2 same_origin (Object_values (mutate_own k f o)) (Object_values o).
Proof.
  intros Hf. unfold Object_values.
  induction o as [|[k' v] rest IH]; simpl; [constructor|].
  destruct (String.eqb k k'); simpl.
  - constructor; [apply Hf|].
    clear. induction rest as [|[k0 v0] rest IH]; simpl; constructor;
      [split; reflexivity|assumption].
  - constructor; [split; reflexivity|assumption].
Qed.

Lemma Forall2_same_origin_trans l1 l2 l3 :
  Forall2 same_origin l1 l2 -> Forall2 same_origin l2 l3 ->
  Forall2 same_origin l1 l3.
Proof.
  intros H. revert l3. induction H as [|a b l1 l2 [Hs Ht] _ IH];
    intros l3 H23; inversion H23 as [|? c ? l3' [Hs' Ht'] H']; subst;
    constructor; [split; congruence|auto].
Qed.

Lemma sort_insert_same_origin x x' l l' :
  same_origin x x' -> Forall2 same_origin l l' ->
  Forall2 same_origin (sort_insert by_timestamp_desc x l)
    (sort_insert by_timestamp_desc x' l').
Proof.
  intros Hx. induction 1 as [|y y' l l' Hy Hl IH]; simpl.
  - constructor; [assumption|constructor].
  - assert (Hc : by_timestamp_desc x y = by_timestamp_desc x' y').
    { unfold by_timestamp_desc. destruct Hx as [_ Hxt], Hy as [_ Hyt].
      now rewrite Hxt, Hyt. }
    rewrite Hc. destruct (Qle_bool (by_timestamp_desc x' y') 0).
    + constructor; [assumption|]. constructor; assumption.
    + constructor; [assumption|]. apply IH.
Qed.

Lemma Array_sort_same_origin l l' :
  Forall2 same_origin l l' ->
  Forall2 same_origin (Array_sort by_timestamp_desc l)
    (Array_sort by_timestamp_desc l').
Proof.
  induction 1; simpl; [constructor|]. now apply sort_insert_same_origin.
Qed.

Lemma filter_same_origin (p : Signal.t -> bool) l l' :
  (forall a b, same_origin a b -> p a = p b) ->
  Forall2 same_origin l l' ->
  Forall2 same_origin (filter p l) (filter p l').
Proof.
  intros Hp. induction 1 as [|a b l l' Hab _ IH]; simpl; [constructor|].
  rewrite (Hp a b Hab). destruct (p b); [constructor|]; assumption.
Qed.

Lemma same_origin_maps l l' :
  Forall2 same_origin l l' ->
  map Signal.symbol l = map Signal.symbol l'
  /\ map Signal.timestamp l = map Signal.timestamp l'.
Proof.
  induction 1 as [|a b l l' [Hs Ht] _ [IH1 IH2]]; simpl; [split; reflexivity|].
  split; congruence.
Qed.

(** An Update never moves a card or a row: the live feed and the history
    table show the same symbols with the same timestamps, in the same
    order, before and after it. *)
Theorem update_keeps_feed_order (u : SignalUpdate.t) (st : State) :
  (map Signal.symbol (activeFeed (handle (Msg_Update u) st))
   = map Signal.symbol (activeFeed st)
   /\ map Signal.timestamp (activeFeed (handle (Msg_Update u) st))
      = map Signal.timestamp (activeFeed st))
  /\ (map Signal.symbol (sortedActiveSignals (handle (Msg_Update u) st))
      = map Signal.symbol (sortedActiveSignals st)
      /\ map Signal.timestamp (sortedActiveSignals (handle (Msg_Update u) st))
         = map Signal.timestamp (sortedActiveSignals st)).
Proof.
  assert (Hv : Forall2 same_origin
                 (Object_values (activeSignals (handle (Msg_Update u) st)))
                 (Object_values (activeSignals st))).
  { rewrite activeSignals_handle. simpl.
    eapply Forall2_same_origin_trans;
      apply Object_values_mutate_own; intros s; split; reflexivity. }
  assert (Hs : Forall2 same_origin (sortedActiveSignals (handle (Msg_Update u) st))
                 (sortedActiveSignals st))
    by now apply Array_sort_same_origin.
  split; apply same_origin_maps; [|exact Hs].
  unfold activeFeed.
  rewrite (filter_ext (is_recent (handle (Msg_Update u) st)) (is_recent st))
    by (intros a; unfold is_recent; now rewrite now_handle).
  apply filter_same_origin; [|exact Hs].
  intros a b [_ Ht]. unfold is_recent. now rewrite Ht.
Qed.

(** ** Order among equal timestamps *)

Lemma filter_sort_insert_same_timestamp (t : number) x l :
  filter (fun s => Qeq_bool (Signal.timestamp s) t)
    (sort_insert by_timestamp_desc x l)
  = filter (fun s => Qeq_bool (Signal.timestamp s) t) (x :: l).
Proof.
  induction l as [|y l IH]; [reflexivity|].
  simpl sort_insert.
  destruct (Qle_bool (by_timestamp_desc x y) 0) eqn:E; [reflexivity|].
  simpl filter at 1. rewrite IH. simpl.
  destruct (Qeq_bool (Signal.timestamp x) t) eqn:Ex,
           (Qeq_bool (Signal.timestamp y) t) eqn:Ey; try reflexivity.
  (* both stamps equal [t]: the comparator is 0 and [x] stays in front *)
  exfalso. apply Qeq_bool_iff in Ex, Ey.
  assert (Hle : by_timestamp_desc x y <= 0)
    by (unfold by_timestamp_desc; lra).
  apply Qle_bool_iff in Hle. congruence.
Qed.

(** The sort keeps the order of equal timestamps (the comparator returns 0
    for them): the entries with any one timestamp appear in the sorted list
    in the order Object.values gave them. *)
Theorem sortedActiveSignals_stable (st : State) (t : number) :
  filter (fun s => Qeq_bool (Signal.timestamp s) t) (sortedActiveSignals st)
  = filter (fun s => Qeq_bool (Signal.timestamp s) t)
      (Object_values (activeSignals st)).
Proof.
  unfold sortedActiveSignals.
  induction (Object_values (activeSignals st)) as [|x l IH]; [reflexivity|].
  simpl Array_sort. rewrite filter_sort_insert_same_timestamp.
  simpl. now rewrite IH.
Qed.

(** ** getProgress and getElapsedTime *)

(** Where getProgress changes character: it is 100 exactly when at least
    60 minutes have elapsed, negative exactly when the timestamp is ahead
    of [now], and 0 exactly when no time has elapsed. *)
Theorem getProgress_thresholds (st : State) (timestamp : number) :
  (getProgress st timestamp == 100 <-> 60 * 60 * 1000 <= now st - timestamp)
  /\ (getProgress st timestamp < 0 <-> now st - timestamp < 0)
  /\ (getProgress st timestamp == 0 <-> now st - timestamp == 0).
Proof.
  unfold getProgress.
  set (x := (now st - timestamp) / (60 * 60 * 1000) * 100).
  assert (Hx : x == (now st - timestamp) * (1 # 36000))
    by apply progress_ratio.
  destruct (Q.min_spec 100 x) as [[Hlt Hmin]|[Hle Hmin]]; rewrite Hmin;
    repeat split; intros H; lra.
Qed.

(** When the timestamp is not ahead of [now], getProgress stays within
    0 and 100. *)
Theorem getProgress_within_range (st : State) (timestamp : number) :
  timestamp <= now st ->
  0 <= getProgress st timestamp /\ getProgress st timestamp <= 100.
Proof.
  intros H. unfold getProgress. split.
  - apply Q.min_glb; [lra|]. rewrite progress_ratio. lra.
  - apply Q.le_min_l.
Qed.

Lemma getProgress_within_range_witness :
  0 <= getProgress (tick 7200000 (initial 0)) 0
  /\ getProgress (tick 7200000 (initial 0)) 0 <= 100.
Proof.
  apply (getProgress_within_range (tick 7200000 (initial 0)) 0).
  simpl. lra.
Defined.

Lemma getProgress_monotone_witness :
  getProgress (tick 1000 (initial 0)) 0 <= getProgress (tick 5000 (initial 0)) 0.
Proof.
  apply (getProgress_monotone (tick 1000 (initial 0)) (tick 5000 (initial 0)) 0 0).
  simpl. lra.
Defined.

Lemma elapsed_ratio (elapsed : number) : elapsed / 60000 == elapsed * (1 # 60000).
Proof. field. Qed.

Lemma elapsed_minutes_bounds st timestamp :
  inject_Z (elapsed_minutes st timestamp) * 60000 <= now st - timestamp
  /\ now st - timestamp < (inject_Z (elapsed_minutes st timestamp) + 1) * 60000.
Proof.
  unfold elapsed_minutes.
  pose proof (Qfloor_le ((now st - timestamp) / 60000)) as Hlo.
  pose proof (Qlt_floor ((now st - timestamp) / 60000)) as Hhi.
  rewrite inject_Z_plus in Hhi. change (inject_Z 1) with 1 in Hhi.
  set (m := inject_Z (Qfloor ((now st - timestamp) / 60000))) in *.
  rewrite elapsed_ratio in Hlo, Hhi.
  split; lra.
Qed.

(** The minute count of a label is the number of whole minutes in
    [now - timestamp], rounded towards minus infinity. *)
Theorem elapsed_minutes_floor (st : State) (timestamp : number) :
  inject_Z (elapsed_minutes st timestamp) * 60000 <= now st - timestamp
  /\ now st - timestamp < (inject_Z (elapsed_minutes st timestamp) + 1) * 60000.
Proof. apply elapsed_minutes_bounds. Qed.

Lemma elapsed_minutes_monotone st st' t t' :
  now st - t <= now st' - t' ->
  (elapsed_minutes st t <= elapsed_minutes st' t')%Z.
Proof.
  intros H. unfold elapsed_minutes. apply Qfloor_resp_le.
  rewrite !elapsed_ratio. lra.
Qed.

(** As the clock advances the label of an entry never counts down. *)
Theorem getElapsedTime_never_counts_down
    (st : State) (t1 t2 timestamp : number) :
  t1 <= t2 ->
  (elapsed_minutes (tick t1 st) timestamp
   <= elapsed_minutes (tick t2 st) timestamp)%Z.
Proof. intros H. apply elapsed_minutes_monotone. simpl. lra. Qed.

Lemma getElapsedTime_never_counts_down_witness :
  (elapsed_minutes (tick 59000%Q (initial 0%Q)) 0%Q
   <= elapsed_minutes (tick 61000%Q (initial 0%Q)) 0%Q)%Z.
Proof.
  apply (getElapsedTime_never_counts_down (initial 0) 59000 61000 0).
  lra.
Defined.

(** A timestamp ahead of [now] is labelled with a negative minute count:
    the label starts with a minus sign. *)
Theorem getElapsedTime_negative_for_future_timestamp
    (st : State) (timestamp : number) :
  now st < timestamp ->
  (elapsed_minutes st timestamp <= -1)%Z
  /\ exists digits, getElapsedTime st timestamp = String "-"%char digits.
Proof.
  intros H.
  assert (Hm : (elapsed_minutes st timestamp <= -1)%Z).
  { destruct (elapsed_minutes_bounds st timestamp) as [Hlo _].
    assert (Hq : inject_Z (elapsed_minutes st timestamp) < inject_Z 0).
    { change (inject_Z 0) with 0.
      set (m := inject_Z (elapsed_minutes st timestamp)) in *. lra. }
    rewrite <- Zlt_Qlt in Hq. lia. }
  split; [exact Hm|].
  unfold getElapsedTime, Number_toString.
  destruct (elapsed_minutes st timestamp) as [|p|p]; try lia.
  simpl. eexists. reflexivity.
Qed.

Lemma getElapsedTime_negative_for_future_timestamp_witness :
  (elapsed_minutes (initial 0%Q) 1000%Q <= -1)%Z
  /\ getElapsedTime (initial 0) 1000 = "-1m".
Proof.
  split; [|reflexivity].
  apply (getElapsedTime_negative_for_future_timestamp (initial 0) 1000).
  reflexivity.
Defined.

(** Every card of the live feed has a progress bar short of 100 and a
    label below 60 minutes: the cap of getProgress is never reached
    there. *)
Theorem feed_cards_below_the_hour (st : State) (s : Signal.t) :
  In s (activeFeed st) ->
  getProgress st (Signal.timestamp s) < 100
  /\ (elapsed_minutes st (Signal.timestamp s) <= 59)%Z.
Proof.
  intros Hin. unfold activeFeed in Hin. apply filter_In in Hin.
  destruct Hin as [_ Hrecent]. unfold is_recent in Hrecent.
  apply Qltb_lt in Hrecent. split.
  - unfold getProgress.
    apply Qle_lt_trans
      with (y := (now st - Signal.timestamp s) / (60 * 60 * 1000) * 100).
    + apply Q.le_min_r.
    + rewrite progress_ratio. lra.
  - destruct (elapsed_minutes_bounds st (Signal.timestamp s)) as [Hlo _].
    assert (Hq : inject_Z (elapsed_minutes st (Signal.timestamp s))
                 < inject_Z 60).
    { change (inject_Z 60) with 60.
      set (m := inject_Z (elapsed_minutes st (Signal.timestamp s))) in *. lra. }
    rewrite <- Zlt_Qlt in Hq. lia.
Qed.

Lemma feed_cards_below_the_hour_witness :
  In btc_long (activeFeed (tick 3599999 (handle (Msg_Signal btc_long) (initial 0))))
  /\ (elapsed_minutes
        (tick 3599999%Q (handle (Msg_Signal btc_long) (initial 0%Q)))
        (Signal.timestamp btc_long) <= 59)%Z.
Proof.
  assert (Hin : In btc_long
                  (activeFeed (tick 3599999
                                 (handle (Msg_Signal btc_long) (initial 0)))))
    by (left; reflexivity).
  split; [exact Hin|].
  apply (feed_cards_below_the_hour _ btc_long Hin).
Defined.

(** ** Whole runs of the page *)

Lemma run_cons e events st : run (e :: events) st = run events (step e st).
Proof. reflexivity. Qed.

Lemma stats_step e st :
  stats (step e st)
  = match e with
    | SocketMessage (Message (Msg_Stats p)) => p
    | _ => stats st
    end.
Proof.
  destruct e as [| |p|t|]; try reflexivity.
  destruct p as [| |m| | |stored Hord]; try reflexivity.
  destruct m as [s|u|p|h]; try reflexivity.
  change (stats (handle (Msg_Update u) st) = stats st).
  apply stats_handle_registry_event. intros p. discriminate.
Qed.

Lemma stats_run events st :
  stats (run events st)
  = match last_stats events with
    | Some p => p
    | None => stats st
    end.
Proof.
  revert st. induction events as [|e events IH]; intros st;
    [reflexivity|].
  rewrite run_cons, IH. simpl.
  destruct (last_stats events); [reflexivity|].
  rewrite stats_step.
  destruct e as [| |p|t|]; try reflexivity.
  destruct p as [| |m| | |stored Hord]; try reflexivity.
  destruct m; reflexivity.
Qed.

(** The stats cell shows the payload of the last Stats frame received, or
    its previous content when none was; no other frame, tick, reconnect or
    click changes it. *)
Theorem stats_last_frame_wins (events : list PageEvent) (st : State) :
  stats (run events st)
  = match last_stats events with
    | Some p => p
    | None => stats st
    end.
Proof. apply stats_run. Qed.

Lemma notifications_step e st :
  notifications (step e st) = (notifications st ++ announced e)%list.
Proof.
  destruct e as [| |p|t|]; simpl; try (now rewrite app_nil_r).
  destruct p as [| |m| | |stored Hord]; simpl; try (now rewrite app_nil_r).
  destruct m as [s|u|p|h]; simpl; try (now rewrite app_nil_r).
  - now rewrite <- app_assoc.
  - rewrite app_nil_r.
    destruct (get_prop (SignalUpdate.symbol u) st) as [| | | |n];
      try reflexivity.
    now destruct (truthy_number n).
Qed.

Lemma notifications_run events st :
  notifications (run events st)
  = (notifications st ++ flat_map announced events)%list.
Proof.
  revert st. induction events as [|e events IH]; intros st.
  - simpl. now rewrite app_nil_r.
  - rewrite run_cons, IH, notifications_step. simpl.
    now rewrite <- app_assoc.
Qed.

(** Over any run, the notifications raised are one toast and one beep per
    Signal frame, in arrival order, and nothing else: History, Update and
    Stats frames, frames that do not decode, ticks, reconnects and the
    Clear button raise none. *)
Theorem notifications_follow_signal_frames
    (events : list PageEvent) (st : State) :
  notifications (run events st)
  = (notifications st ++ flat_map announced events)%list.
Proof. apply notifications_run. Qed.

Lemma activeSignals_step_indep e st st' :
  activeSignals st = activeSignals st' ->
  activeSignals (step e st) = activeSignals (step e st').
Proof.
  intros H. destruct e as [| |p|t|]; simpl; try assumption; [|reflexivity].
  destruct p as [| |m| | |stored Hord]; simpl; try assumption.
  - change (activeSignals (handle m st) = activeSignals (handle m st')).
    now rewrite !activeSignals_handle, H.
  - now rewrite H.
Qed.

Lemma step_without_message e st :
  carries_message e = false ->
  activeSignals (step e st) = activeSignals st
  /\ stats (step e st) = stats st
  /\ notifications (step e st) = notifications st.
Proof.
  destruct e as [| |p|t|]; try discriminate.
  destruct p as [| |m| | |stored Hord]; try discriminate; repeat split.
Qed.

(** Frames that do not decode can be struck from any run: registry, stats
    and notifications come out as if they had never been sent. *)
Theorem undecodable_frames_leave_no_trace
    (events : list PageEvent) (st : State) :
  activeSignals (run events st)
  = activeSignals (run (filter carries_message events) st)
  /\ stats (run events st) = stats (run (filter carries_message events) st)
  /\ notifications (run events st)
     = notifications (run (filter carries_message events) st).
Proof.
  assert (Hreg : forall evs st1 st2,
             activeSignals st1 = activeSignals st2 ->
             activeSignals (run evs st1)
             = activeSignals (run (filter carries_message evs) st2)).
  { induction evs as [|e evs IH]; intros st1 st2 H; [assumption|].
    rewrite run_cons. simpl filter.
    destruct (carries_message e) eqn:E.
    - rewrite run_cons. apply IH. now apply activeSignals_step_indep.
    - apply IH. destruct (step_without_message e st1 E) as [-> _]. exact H. }
  split; [now apply Hreg|]. split.
  - rewrite !stats_run.
    assert (Hl : last_stats (filter carries_message events) = last_stats events).
    { induction events as [|e evs IH]; simpl; [reflexivity|].
      destruct (carries_message e) eqn:E; simpl; rewrite IH; [reflexivity|].
      destruct (last_stats evs); [reflexivity|].
      destruct e as [| |p|t|]; try discriminate.
      destruct p as [| |m| | |stored Hord]; try discriminate; reflexivity. }
    now rewrite Hl.
  - rewrite !notifications_run. f_equal.
    induction events as [|e evs IH]; simpl; [reflexivity|].
    destruct (carries_message e) eqn:E; simpl; rewrite IH; [reflexivity|].
    destruct e as [| |p|t|]; try discriminate.
    destruct p as [| |m| | |stored Hord]; try discriminate; reflexivity.
Qed.






(** An Update for a symbol without an entry never creates an entry and
    never changes one, whatever the symbol is (names found on
    Object.prototype included) and whether or not the handler throws. *)
Theorem orphan_update_never_touches_registry
    (u : SignalUpdate.t) (st : State) :
  get_own (SignalUpdate.symbol u) (activeSignals st) = None ->
  activeSignals (handle (Msg_Update u) st) = activeSignals st.
Proof.
  intros Hn. rewrite activeSignals_handle. simpl.
  now apply mutate_own_twice_absent.
Qed.

Lemma orphan_update_never_touches_registry_witness :
  activeSignals (handle (Msg_Update proto_update)
                   (handle (Msg_Signal eth_long) (initial 0)))
  = [("ETH", eth_long)].
Proof.
  apply (orphan_update_never_touches_registry proto_update
           (handle (Msg_Signal eth_long) (initial 0))).
  reflexivity.
Defined.

Lemma signal_last_write_wins_witness :
  get_own "BTC"
    (activeSignals
       (process (map Msg_Signal ([btc_long; eth_long] ++ [btc_long]))
          (initial 0)))
  = Some btc_long.
Proof.
  apply (signal_last_write_wins "BTC" [btc_long; eth_long] btc_long (initial 0)).
  - discriminate.
  - reflexivity.
Defined.

Lemma keys_registry_after m o :
  incl (keys o) (keys (registry_after m o)).
Proof.
  destruct m as [s|u|p|h]; simpl.
  - intros k Hk. apply keys_set_prop. now left.
  - rewrite !keys_mutate_own. apply incl_refl.
  - apply incl_refl.
  - revert o. induction h as [|s h IH]; intros o; simpl; [apply incl_refl|].
    eapply incl_tran; [|apply IH].
    intros k Hk. apply keys_set_prop. now left.
Qed.

(** Entries never expire: over a run without a click on Clear (however
    far the clock advances, through reconnects and any frames) every
    symbol that had an entry still has one. *)
Theorem entries_removed_only_by_clear (events : list PageEvent) (st : State) :
  forallb (fun e => negb (is_clear e)) events = true ->
  incl (keys (activeSignals st)) (keys (activeSignals (run events st))).
Proof.
  revert st. induction events as [|e events IH]; intros st Hall.
  - apply incl_refl.
  - simpl in Hall. apply andb_prop in Hall. destruct Hall as [He Hall].
    rewrite run_cons. eapply incl_tran; [|apply (IH _ Hall)].
    destruct e as [| |p|t|]; try apply incl_refl; [|discriminate].
    destruct p as [| |m| | |stored Hord]; try apply incl_refl.
    + change (incl (keys (activeSignals st))
                (keys (activeSignals (handle m st)))).
      rewrite activeSignals_handle. apply keys_registry_after.
    + apply (keys_registry_after (Msg_History stored)).
Qed.

Lemma entries_removed_only_by_clear_witness :
  In "BTC"
    (keys (activeSignals
             (run [IntervalTick 86400000; SocketClose; SocketOpen;
                   SocketMessage (Message (Msg_History [eth_long]))]
                (handle (Msg_Signal btc_long) (initial 0))))).
Proof.
  apply (entries_removed_only_by_clear
           [IntervalTick 86400000; SocketClose; SocketOpen;
            SocketMessage (Message (Msg_History [eth_long]))]
           (handle (Msg_Signal btc_long) (initial 0))).
  - reflexivity.
  - left. reflexivity.
Defined.

Lemma Forall2_same_origin_refl l : Forall2 same_origin l l.
Proof. induction l; constructor; [split; reflexivity|assumption]. Qed.

(** Between the frames that store signals, nothing re-stamps an entry:
    over a run without Signal and History frames and without a click on
    Clear, the registry keeps the same symbols with the same timestamps,
    in the same order. *)
Theorem timestamps_set_only_by_signals (events : list PageEvent) (st : State) :
  forallb (fun e => negb (stores_signals e || is_clear e)) events = true ->
  Forall2 same_origin (Object_values (activeSignals (run events st)))
    (Object_values (activeSignals st)).
Proof.
  revert st. induction events as [|e events IH]; intros st Hall.
  - apply Forall2_same_origin_refl.
  - simpl in Hall. apply andb_prop in Hall. destruct Hall as [He Hall].
    rewrite run_cons.
    eapply Forall2_same_origin_trans; [apply (IH _ Hall)|].
    destruct e as [| |p|t|]; try apply Forall2_same_origin_refl;
      [|discriminate].
    destruct p as [| |m| | |stored Hord]; try apply Forall2_same_origin_refl;
      [|discriminate].
    destruct m as [s|u|p|h]; try discriminate.
    + change (Forall2 same_origin
                (Object_values (activeSignals (handle (Msg_Update u) st)))
                (Object_values (activeSignals st))).
      rewrite activeSignals_handle. simpl.
      eapply Forall2_same_origin_trans;
        apply Object_values_mutate_own; intros s; split; reflexivity.
    + apply Forall2_same_origin_refl.
Qed.

Lemma timestamps_set_only_by_signals_witness :
  map Signal.timestamp
    (Object_values
       (activeSignals
          (run [SocketMessage (Message (Msg_Update btc_update));
                IntervalTick 700000]
             (handle (Msg_Signal btc_long) (initial 0)))))
  = [0].
Proof.
  apply (same_origin_maps _ [btc_long]).
  apply (timestamps_set_only_by_signals
           [SocketMessage (Message (Msg_Update btc_update));
            IntervalTick 700000]
           (handle (Msg_Signal btc_long) (initial 0))).
  reflexivity.
Defined.

Lemma isConnected_step e st :
  isConnected (step e st)
  = match e with
    | SocketOpen => true
    | SocketClose => false
    | _ => isConnected st
    end.
Proof.
  destruct e as [| |p|t|]; try reflexivity.
  destruct p as [| |m| | |stored Hord]; try reflexivity.
  destruct m as [s|u|p|h]; try reflexivity.
  simpl. destruct (get_prop (SignalUpdate.symbol u) st) as [| | | |n];
    try reflexivity.
  now destruct (truthy_number n).
Qed.

(** The connection indicator shows what the last onopen or onclose
    callback reported; frames, ticks and the Clear button leave it
    alone. *)
Theorem indicator_follows_socket (events : list PageEvent) (st : State) :
  isConnected (run events st)
  = match last_connection events with
    | Some b => b
    | None => isConnected st
    end.
Proof.
  revert st. induction events as [|e events IH]; intros st; [reflexivity|].
  rewrite run_cons, IH. simpl.
  destruct (last_connection events); [reflexivity|].
  rewrite isConnected_step. destruct e; reflexivity.
Qed.

(** ** The live feed over time and under new signals *)

Lemma activeFeed_In st s :
  In s (activeFeed st)
  <-> In s (Object_values (activeSignals st))
      /\ now st - Signal.timestamp s < 60 * 60 * 1000.
Proof.
  unfold activeFeed. rewrite filter_In. unfold is_recent. rewrite Qltb_lt.
  split; intros [H1 H2]; split; try assumption.
  - apply (Permutation_in _ (sortedActiveSignals_perm st)), H1.
  - apply (Permutation_in _ (Permutation_sym (sortedActiveSignals_perm st))), H1.
Qed.

(** As the clock advances the live feed only loses cards: an entry shown
    at a later time was shown at every earlier time. *)
Theorem feed_only_shrinks_with_time
    (st : State) (t1 t2 : number) (s : Signal.t) :
  t1 <= t2 ->
  In s (activeFeed (tick t2 st)) -> In s (activeFeed (tick t1 st)).
Proof.
  intros Ht Hin. apply activeFeed_In in Hin. apply activeFeed_In.
  simpl in *. split; [tauto|lra].
Qed.

Lemma feed_only_shrinks_with_time_witness :
  In btc_long (activeFeed (tick 1000 (handle (Msg_Signal btc_long) (initial 0)))).
Proof.
  apply (feed_only_shrinks_with_time
           (handle (Msg_Signal btc_long) (initial 0)) 1000 60000 btc_long).
  - lra.
  - left. reflexivity.
Defined.

Lemma filter_define_own_others k v o :
  get_own k o = None ->
  filter (fun k' => negb (String.eqb k' k)) (keys (define_own k v o))
  = filter (fun k' => negb (String.eqb k' k)) (keys o).
Proof.
  induction o as [|[k0 v0] rest IH]; simpl.
  - now rewrite String.eqb_refl.
  - destruct (String.eqb k k0) eqn:E; [discriminate|]. intros Hn.
    destruct (enumerates_before k k0); simpl.
    + now rewrite String.eqb_refl.
    + now rewrite IH.
Qed.

(** A Signal frame touches one entry only: the entries of all other
    symbols are as before, and those symbols keep their order among each
    other in Object.values. *)
Theorem signal_leaves_other_entries (s : Signal.t) (st : State) :
  (forall k, k <> Signal.symbol s ->
             get_own k (activeSignals (handle (Msg_Signal s) st))
             = get_own k (activeSignals st))
  /\ filter (fun k => negb (String.eqb k (Signal.symbol s)))
       (keys (activeSignals (handle (Msg_Signal s) st)))
     = filter (fun k => negb (String.eqb k (Signal.symbol s)))
         (keys (activeSignals st)).
Proof.
  rewrite activeSignals_handle. simpl. split.
  - intros k Hk. now apply get_own_set_other.
  - unfold set_prop.
    destruct (String.eqb (Signal.symbol s) "__proto__"); [reflexivity|].
    destruct (has_own (Signal.symbol s) (activeSignals st)) eqn:E.
    + now rewrite keys_overwrite.
    + apply filter_define_own_others. now apply has_own_false.
Qed.

Lemma sort_insert_front x l :
  (forall y, In y l -> by_timestamp_desc x y <= 0) ->
  sort_insert by_timestamp_desc x l = x :: l.
Proof.
  destruct l as [|y l]; [reflexivity|]. intros H. simpl.
  assert (Hy : by_timestamp_desc x y <= 0) by (apply H; now left).
  apply Qle_bool_iff in Hy. now rewrite Hy.
Qed.

Lemma filter_sort_insert (p : Signal.t -> bool) x l :
  StronglySorted newer_first l ->
  filter p (sort_insert by_timestamp_desc x l)
  = if p x then sort_insert by_timestamp_desc x (filter p l) else filter p l.
Proof.
  induction 1 as [|y l Hl IH Hy]; simpl.
  - now destruct (p x).
  - destruct (Qle_bool (by_timestamp_desc x y) 0) eqn:E; simpl.
    + destruct (p x) eqn:Ex; [|reflexivity].
      symmetry. apply sort_insert_front.
      apply Qle_bool_iff in E. unfold by_timestamp_desc in *.
      intros z Hz.
      assert (Hz' : In z (y :: l)).
      { change (In z (filter p (y :: l))) in Hz. now apply filter_In in Hz. }
      destruct Hz' as [<-|Hz']; [assumption|].
      rewrite Forall_forall in Hy. specialize (Hy z Hz').
      unfold newer_first in Hy. lra.
    + rewrite IH. destruct (p y) eqn:Ey, (p x) eqn:Ex; simpl;
        try reflexivity. now rewrite E.
Qed.

(** Filtering and sorting can be swapped: the live feed is also the sorted
    list of the entries younger than 60 minutes. *)
Theorem activeFeed_sorts_the_recent_entries (st : State) :
  activeFeed st
  = Array_sort by_timestamp_desc
      (filter (is_recent st) (Object_values (activeSignals st))).
Proof.
  unfold activeFeed, sortedActiveSignals.
  induction (Object_values (activeSignals st)) as [|x l IH]; [reflexivity|].
  simpl Array_sort at 1. rewrite filter_sort_insert.
  - simpl filter. destruct (is_recent st x); simpl; now rewrite IH.
  - clear IH. induction l as [|y l IHl]; simpl; [constructor|].
    now apply sort_insert_newer_first.
Qed.
